(** * Memoization decorators: a shallow embedding

    The development follows the JavaScript sources of the repository:

    - [function.js]: [DefaultMap], [Cache] ([Cache.references],
      [Cache.keyFrom], [Cache.fetch]) and the advice triple of [memoize]
      ([class], [value], [accessor]), applied through [use] of [use.js];
    - [descorators.js]: the earlier generation of [memoize], built on the
      helpers [retrieve], [retrieveByArguments] and [keyFor].

    JavaScript code is stateful and may throw, so every operation is a
    computation in a state-and-exception monad over a [world] that holds
    the objects the code owns (its maps, counters and closure variables). *)

From Stdlib Require Import ZArith Ascii String.
From stdpp Require Import base option strings list gmap pretty.

(** ** Values of the host language *)

(** The rendering of a Number by a template literal is the host's
    (ECMAScript Number::toString); the development is parametric in the
    type of numbers and in that rendering. *)
Class Host := {
  number : Type;
  Number_toString : number → string
}.

(** A host whose numbers are the integers, printed in decimal, for
    concrete runs. *)
Definition integral_host : Host :=
  {| number := Z; Number_toString := pretty |}.

(** Identity of a reference-typed value; [typeof] tells objects from callables. *)
Inductive reference :=
  | AnObject (address : positive)
  | AFunction (address : positive).

#[global] Instance reference_eq_dec : EqDecision reference.
Proof. solve_decision. Defined.

#[global] Instance reference_countable : Countable reference.
Proof.
  refine (inj_countable'
    (λ r, match r with AnObject a => inl a | AFunction a => inr a end)
    (λ s, match s with inl a => AnObject a | inr a => AFunction a end) _).
  by intros [].
Defined.

Section values.
Context `{Host}.

Inductive primitive :=
  | PUndefined
  | PNull
  | PBoolean (b : bool)
  | PNumber (n : number)
  | PBigInt (z : Z)
  | PString (s : string)
  | PSymbol (id : positive).

Inductive value :=
  | Primitive (p : primitive)
  | Ref (r : reference).

(** What [Map.prototype.get] answers for an absent key. *)
#[global] Instance value_inhabited : Inhabited value :=
  populate (Primitive PUndefined).

Inductive exn :=
  | TypeError (message : string)
  | ReferenceError (message : string)
  | Thrown (v : value).

Inductive completion (A : Type) :=
  | Normal (a : A)
  | Throw (e : exn).
#[global] Arguments Normal {A} a.
#[global] Arguments Throw {A} e.

(** A call of a client callback, as recorded in the world's call log. *)
Record call := Call {
  callee : string;
  receiver : value;
  parameters : list value
}.

End values.

(** ** Computations *)

Definition M `{Host} (W A : Type) : Type := W → completion A * W.

#[global] Instance M_ret `{Host} {W} : MRet (M W) :=
  λ A a w, (Normal a, w).

#[global] Instance M_bind `{Host} {W} : MBind (M W) :=
  λ A B k m w,
    match m w with
    | (Normal a, w') => k a w'
    | (Throw e, w') => (Throw e, w')
    end.

Definition throw `{Host} {W A} (e : exn) : M W A := λ w, (Throw e, w).

Definition lift `{Host} {W A} (c : completion A) : M W A := λ w, (c, w).

(** ** Strings *)

Definition dquote : string := String "034"%char EmptyString.

(** [strip p s] is what follows [p] in [s] when [s] starts with [p]. *)
Fixpoint strip (p s : string) : option string :=
  match p with
  | EmptyString => Some s
  | String a p' =>
      match s with
      | EmptyString => None
      | String b s' => if decide (a = b) then strip p' s' else None
      end
  end.

(** [String.prototype.replace] with a string pattern and a replacement
    without [$]: the first occurrence of the pattern is replaced. *)
Fixpoint String_replace (pattern replacement s : string) : string :=
  match strip pattern s with
  | Some rest => replacement +:+ rest
  | None =>
      match s with
      | EmptyString => EmptyString
      | String c s' => String c (String_replace pattern replacement s')
      end
  end.

(** [Array.prototype.join] on an array of strings. *)
Definition join (separator : string) (items : list string) : string :=
  String.concat separator items.

Section conversions.
Context `{Host}.

(** [${it}] for a primitive [it]: ToString, which rejects symbols. *)
Definition ToString (p : primitive) : completion string :=
  match p with
  | PUndefined => Normal "undefined"
  | PNull => Normal "null"
  | PBoolean b => Normal (if b then "true" else "false")
  | PNumber n => Normal (Number_toString n)
  | PBigInt z => Normal (pretty z)
  | PString s => Normal s
  | PSymbol _ => Throw (TypeError "Cannot convert a Symbol value to a string")
  end.

End conversions.

(** ** Map objects *)

(** A [Map] or [WeakMap] is a mutable object; [slot] says where its
    entries are kept in the world. Every holder of the object goes through
    the same slot, which is how aliasing is kept. *)
Record slot (W K V : Type) `{Countable K} := Slot {
  entries : W → gmap K V;
  assign : gmap K V → W → W
}.
Arguments Slot {W K V _ _} entries assign.
Arguments entries {W K V _ _} s w.
Arguments assign {W K V _ _} s m w.

(** The methods the code uses on a map object ([store.has], [store.get],
    [store.set], [store.delete]). *)
Record MapObject `{Host} (W K V : Type) := {
  Map_has : K → M W bool;
  Map_get : K → M W V;
  Map_set : K → V → M W unit;
  Map_delete : K → M W bool
}.
Arguments Map_has {_ W K V} m key.
Arguments Map_get {_ W K V} m key.
Arguments Map_set {_ W K V} m key v.
Arguments Map_delete {_ W K V} m key.

Section maps.
Context `{Host} {W V : Type} `{Inhabited V}.

(** [new Map()], used with string keys. *)
Definition new_Map `{Countable K} (s : slot W K V) : MapObject W K V := {|
  Map_has key := λ w, (Normal (bool_decide (is_Some (entries s w !! key))), w);
  Map_get key := λ w, (Normal (entries s w !!! key), w);
  Map_set key v := λ w, (Normal tt, assign s (<[key := v]> (entries s w)) w);
  Map_delete key := λ w,
    (Normal (bool_decide (is_Some (entries s w !! key))),
     assign s (delete key (entries s w)) w)
|}.

(** [new WeakMap()]: keys are held by identity, and only reference-typed
    values can be keys: [set] throws a TypeError on a primitive, the other
    methods answer as for an absent key. *)
Definition new_WeakMap (s : slot W reference V) : MapObject W value V := {|
  Map_has key :=
    match key with
    | Ref r => Map_has (new_Map s) r
    | Primitive _ => mret false
    end;
  Map_get key :=
    match key with
    | Ref r => Map_get (new_Map s) r
    | Primitive _ => mret inhabitant
    end;
  Map_set key v :=
    match key with
    | Ref r => Map_set (new_Map s) r v
    | Primitive _ => throw (TypeError "Invalid value used as weak map key")
    end;
  Map_delete key :=
    match key with
    | Ref r => Map_delete (new_Map s) r
    | Primitive _ => mret false
    end
|}.

End maps.

(** * function.js *)

Module Function.
Section function_js.
Context `{Host}.

(** The objects the module owns. Entries of weak maps are keyed by the
    identity of their key. The counter is a Number that only ever grows by
    one from 1; the model counts in [N], which is what a Number does
    below 2^53. The call log is ghost state: it records the calls of
    client functions, most recent first. *)
Record world := World {
  Cache_guuid : N;                              (* static guuid *)
  registry : gmap reference N;                  (* WeakMap of Cache.references *)
  scopes : gmap reference (gmap string value);  (* WeakMap of a Cache's store,
                                                   with the Map of each context *)
  accessor_cache : value;                       (* let cache *)
  accessor_invalid : bool;                      (* let invalid *)
  next_address : positive;                      (* the allocator behind [new] *)
  calls : list call
}.

Definition log (c : call) (w : world) : world :=
  World (Cache_guuid w) (registry w) (scopes w) (accessor_cache w)
        (accessor_invalid w) (next_address w) (c :: calls w).

(** A call of a client function, recorded before its body runs. *)
Definition invoke {A} (c : call) (body : M world A) : M world A :=
  λ w, body (log c w).

(** Calling an expression that may not hold a function. *)
Definition apply {A} (name : string) (f : option (M world A)) : M world A :=
  match f with
  | Some body => body
  | None => throw (TypeError (name +:+ " is not a function"))
  end.

(** An identifier that no declaration binds. *)
Definition unbound {A} (name : string) : M world A :=
  throw (ReferenceError (name +:+ " is not defined")).

(** ** class DefaultMap *)

Record DefaultMap (K V : Type) := {
  store : MapObject world K V;
  fallback : option (M world V)
}.
Arguments store {K V} d.
Arguments fallback {K V} d.

(** [fetch(key, fallback)]:
    [if (!this.store.has(key)) this.store.set(key, fallback())]
    [return this.store.get(key)] *)
Definition DefaultMap_fetch {K V} (this : DefaultMap K V) (key : K)
    (fallback : option (M world V)) : M world V :=
  present ← Map_has (store this) key;
  (if present : bool then mret tt
   else v ← apply "fallback" fallback; Map_set (store this) key v);;
  Map_get (store this) key.

(** [get(key)]: [return this.fetch(key, this.fallback)] *)
Definition DefaultMap_get {K V} (this : DefaultMap K V) (key : K) : M world V :=
  DefaultMap_fetch this key (fallback this).

(** ** class Cache *)

Definition registry_slot : slot world reference N :=
  Slot registry
       (λ m w, World (Cache_guuid w) m (scopes w) (accessor_cache w)
                     (accessor_invalid w) (next_address w) (calls w)).

(** [Cache.guuid++] *)
Definition guuid_post_increment : M world N :=
  λ w, (Normal (Cache_guuid w),
        World (N.succ (Cache_guuid w)) (registry w) (scopes w) (accessor_cache w)
              (accessor_invalid w) (next_address w) (calls w)).

(** [static references = new DefaultMap(new WeakMap(), () => Cache.guuid++)] *)
Definition references : DefaultMap value N :=
  {| store := new_WeakMap registry_slot;
     fallback := Some guuid_post_increment |}.

(** [static keyFrom(parameters)], one parameter. The reference case reads
    the identifier [references]; the registry is the static field
    [Cache.references], which a class body does not bring into scope, and
    the module declares no [references] of its own: the lookup fails.
    In the string case the pattern and the replacement are both the
    one-character string made of a double quote (the backslash of the
    replacement literal is the escape of the quote inside the literal). *)
Definition keyFrom_token (it : value) : M world string :=
  match it with
  | Primitive (PUndefined as p) | Primitive (PNull as p) =>   (* it == null *)
      lift (ToString p)
  | Ref r =>                                  (* "object", "function" *)
      id ← unbound (A := N) "references";
      mret ("<" +:+ pretty id +:+ ">")
  | Primitive (PString it) =>                 (* "string" *)
      mret (dquote +:+ String_replace dquote dquote it +:+ dquote)
  | Primitive p =>                            (* default *)
      lift (ToString p)
  end.

(** [parameters.map(...).join(",")] *)
Definition keyFrom (parameters : list value) : M world string :=
  tokens ← mapM keyFrom_token parameters;
  mret (join "," tokens).

Definition scopes_slot : slot world reference (gmap string value) :=
  Slot scopes
       (λ m w, World (Cache_guuid w) (registry w) m (accessor_cache w)
                     (accessor_invalid w) (next_address w) (calls w)).

(** The [Map] of the [DefaultMap] stored for [context]. *)
Definition scope_slot (context : reference) : slot world string value :=
  Slot (λ w, scopes w !!! context)
       (λ m w, assign scopes_slot (<[context := m]> (scopes w)) w).

(** [new DefaultMap(new Map(), null)], as stored for [context]. *)
Definition scope (context : reference) : DefaultMap string value :=
  {| store := new_Map (scope_slot context); fallback := None |}.

(** [this.store = new DefaultMap(new WeakMap(),
                                 () => new DefaultMap(new Map(), null))] *)
Definition Cache_store : DefaultMap value (gmap string value) :=
  {| store := new_WeakMap scopes_slot; fallback := Some (mret ∅) |}.

(** [fetch(context, parameters, fallback)]:
    [this.store.get(context).fetch(Cache.keyFrom(parameters), fallback)].
    The scope is looked up (and created) first, then the key is built,
    then the scope's [fetch] runs. *)
Definition Cache_fetch (context : value) (parameters : list value)
    (fallback : option (M world value)) : M world value :=
  _ ← DefaultMap_get Cache_store context;
  key ← keyFrom parameters;
  match context with
  | Ref c => DefaultMap_fetch (scope c) key fallback
  | Primitive _ => throw (TypeError "Invalid value used as weak map key")
  end.

(** ** memoize *)

(** What a property descriptor's [value] may hold. *)
Inductive member :=
  | Callable (f : value → list value → M world value)
  | Plain (v : value).

(** Calling [receiver.name(...parameters)]. *)
Definition call_member (m : member) (this : value) (parameters : list value)
    : M world value :=
  match m with
  | Callable f => f this parameters
  | Plain _ => throw (TypeError "is not a function")
  end.

(** [class]: [new MemoizedClass(...parameters)]. The constructor returns
    [cache.fetch(target, parameters, () => new target(...parameters))];
    a derived constructor that does not call [super] has to return an
    object. *)
Definition MemoizedClass (target : reference)
    (new_target : list value → M world reference) (parameters : list value)
    : M world value :=
  result ← Cache_fetch (Ref target) parameters
             (Some (invoke (Call "target" (Ref target) parameters)
                           (r ← new_target parameters; mret (Ref r))));
  match result with
  | Ref _ => mret result
  | Primitive PUndefined =>
      throw (ReferenceError "Must call super constructor in derived class")
  | Primitive _ =>
      throw (TypeError "Derived constructors may only return object or undefined")
  end.

(** A function as the advice sees it: what [target.apply(this, parameters)]
    runs, and what [target.prototype] holds ([undefined] for a function
    written in method syntax). *)
Record function_object := {
  code : value → list value → M world value;
  prototype : value
}.

(** [Object.create(proto)], for its check of [proto]; the object it makes
    is reachable through its result only. *)
Definition Object_create (proto : value) : M world unit :=
  match proto with
  | Ref _ | Primitive PNull => mret tt
  | Primitive _ =>
      throw (TypeError "Object prototype may only be an Object or null")
  end.

(** [value]: the function [memoized] that the advice declares. *)
Definition memoized (target : function_object)
    (this : value) (parameters : list value) : M world value :=
  Cache_fetch this parameters
    (Some (invoke (Call "target" this parameters) (code target this parameters))).

(** [value(target)]: the body declares [memoized], sets up its prototype
    chain with [Object.setPrototypeOf(memoized, target)] and
    [memoized.prototype = Object.create(target.prototype)], and ends
    without a [return] statement. *)
Definition memoize_value (target : function_object) : M world member :=
  let memoized := memoized target in
  Object_create (prototype target);;
  mret (Plain (Primitive PUndefined)).

(** use.js, method branch:
    [descriptor.value = aspect.value(descriptor.value)] *)
Definition use_value (advice : function_object → M world member)
    (descriptor_value : function_object) : M world member :=
  advice descriptor_value.

(** The closure variables [cache] and [invalid] of [accessor]. *)
Definition read_cache : M world value :=
  λ w, (Normal (accessor_cache w), w).

Definition read_invalid : M world bool :=
  λ w, (Normal (accessor_invalid w), w).

Definition write_cache (v : value) : M world unit :=
  λ w, (Normal tt,
        World (Cache_guuid w) (registry w) (scopes w) v (accessor_invalid w)
              (next_address w) (calls w)).

Definition write_invalid (b : bool) : M world unit :=
  λ w, (Normal tt,
        World (Cache_guuid w) (registry w) (scopes w) (accessor_cache w) b
              (next_address w) (calls w)).

(** [accessor(getter, setter)], [get()]:
    [if (invalid) { cache = getter.call(this); invalid = false }]
    [return cache] *)
Definition accessor_get (getter : value → M world value) (this : value)
    : M world value :=
  invalid ← read_invalid;
  (if invalid : bool then
     v ← invoke (Call "getter" this []) (getter this);
     write_cache v;;
     write_invalid false
   else mret tt);;
  read_cache.

(** [accessor(getter, setter)], [set(value)]:
    [cache = void 0; invalid = true; return setter.call(this, value)] *)
Definition accessor_set (setter : option (value → value → M world value))
    (this : value) (v : value) : M world value :=
  write_cache (Primitive PUndefined);;
  write_invalid true;;
  match setter with
  | Some setter => invoke (Call "setter" this [v]) (setter this v)
  | None => throw (TypeError "Cannot read properties of undefined")
  end.

(** A constructor that does nothing but allocate: each [new] gives an
    object at a fresh address. *)
Definition allocate (_ : list value) : M world reference :=
  λ w, (Normal (AnObject (next_address w)),
        World (Cache_guuid w) (registry w) (scopes w) (accessor_cache w)
              (accessor_invalid w) (Pos.succ (next_address w)) (calls w)).

Definition initial : world :=
  World 1 ∅ ∅ (Primitive PUndefined) true 1 [].

(** Collection of an unreachable reference: the entries the weak maps
    hold under it vanish. *)
Definition collect (r : reference) (w : world) : world :=
  World (Cache_guuid w) (delete r (registry w)) (delete r (scopes w))
        (accessor_cache w) (accessor_invalid w) (next_address w) (calls w).

(** What happens to the identity registry in the life of a program:
    [Cache.references.get(it)] for a reference [it], and collections. *)
Inductive registry_event :=
  | Register (r : reference)
  | Collect (r : reference).

Definition registry_step (w : world) (e : registry_event) : world :=
  match e with
  | Register r => (DefaultMap_get references (Ref r) w).2
  | Collect r => collect r w
  end.

Definition registry_run (events : list registry_event) : world :=
  foldl registry_step initial events.

End function_js.
End Function.

(** * descorators.js *)

Module Descorators.
Section descorators_js.
Context `{Host}.

(** The objects of the module and of one application of [memoize] to a
    method and to an accessor. The counter is a Number that only ever
    grows by one from 1; the model counts in [N], which is what a Number
    does below 2^53. The call log is ghost state, most recent call
    first. *)
Record world := World {
  guuid : N;                                         (* let guuid = 1 *)
  references : gmap reference N;                     (* const references = new WeakMap() *)
  method_cache : gmap reference (gmap string value); (* method: const cache = new WeakMap(),
                                                        with the Map of each receiver *)
  bound : gmap reference value;                      (* method: const bound = new WeakMap() *)
  accessor_cache : gmap reference value;             (* accessor: const cache = new WeakMap() *)
  calls : list call
}.

Definition log (c : call) (w : world) : world :=
  World (guuid w) (references w) (method_cache w) (bound w) (accessor_cache w)
        (c :: calls w).

(** A call of a client function, recorded before its body runs. *)
Definition invoke {A} (c : call) (body : M world A) : M world A :=
  λ w, body (log c w).

(** ** Private helpers *)

(** [retrieve(store, key, create)]:
    [store.has(key) || store.set(key, create())]
    [return store.get(key)] *)
Definition retrieve {K V} (store : MapObject world K V) (key : K)
    (create : M world V) : M world V :=
  present ← Map_has store key;
  (if present : bool then mret tt
   else v ← create; Map_set store key v);;
  Map_get store key.

Definition references_slot : slot world reference N :=
  Slot references
       (λ m w, World (guuid w) m (method_cache w) (bound w) (accessor_cache w)
                     (calls w)).

(** [guuid++] *)
Definition guuid_post_increment : M world N :=
  λ w, (Normal (guuid w),
        World (N.succ (guuid w)) (references w) (method_cache w) (bound w)
              (accessor_cache w) (calls w)).

(** [keyFor(...args)], one argument. The switch on [typeof it] lets a
    non-null object fall through to the function case. In the string case
    the pattern and the replacement are both the one-character string made
    of a double quote. *)
Definition keyFor_token (it : value) : M world string :=
  match it with
  | Primitive PNull => mret "null"            (* "object", it === null *)
  | Ref r =>                                  (* "object", "function" *)
      id ← retrieve (new_WeakMap references_slot) it guuid_post_increment;
      mret ("<" +:+ pretty id +:+ ">")
  | Primitive (PString it) =>                 (* "string" *)
      mret (dquote +:+ String_replace dquote dquote it +:+ dquote)
  | Primitive p =>                            (* default *)
      lift (ToString p)
  end.

(** [args.map(...).join(",")] *)
Definition keyFor (args : list value) : M world string :=
  tokens ← mapM keyFor_token args;
  mret (join "," tokens).

(** [retrieveByArguments()], called on [{ store, init }]:
    [retrieve(this.store, keyFor(...arguments), this.init(...arguments))];
    [this.init(...arguments)] only builds the thunk that [retrieve] calls
    on a miss. *)
Definition retrieveByArguments (store : MapObject world string value)
    (init : list value → M world value) (arguments : list value)
    : M world value :=
  key ← keyFor arguments;
  retrieve store key (init arguments).

(** ** memoize, method decorator *)

Definition method_cache_slot : slot world reference (gmap string value) :=
  Slot method_cache
       (λ m w, World (guuid w) (references w) m (bound w) (accessor_cache w)
                     (calls w)).

Definition bound_slot : slot world reference value :=
  Slot bound
       (λ m w, World (guuid w) (references w) (method_cache w) m
                     (accessor_cache w) (calls w)).

(** The [Map] stored in [cache] for the receiver [this]. *)
Definition receiver_slot (this : reference) : slot world string value :=
  Slot (λ w, method_cache w !!! this)
       (λ m w, assign method_cache_slot (<[this := m]> (method_cache w)) w).

(** [memoizedMethod()]. The entry of [bound] is [bind.bind(method, this)],
    kept as the receiver it binds; applied to the arguments it gives
    [method.bind(receiver, ...arguments)], the thunk that calls the
    method. *)
Definition memoizedMethod (method : value → list value → M world value)
    (this : value) (arguments : list value) : M world value :=
  receiver ← retrieve (new_WeakMap bound_slot) this (mret this);
  _ ← retrieve (new_WeakMap method_cache_slot) this (mret ∅);
  match this with
  | Ref r =>
      retrieveByArguments (new_Map (receiver_slot r))
        (λ args, invoke (Call "method" receiver args) (method receiver args))
        arguments
  | Primitive _ => throw (TypeError "Invalid value used as weak map key")
  end.

(** ** memoize, accessor decorator *)

Definition accessor_cache_slot : slot world reference value :=
  Slot accessor_cache
       (λ m w, World (guuid w) (references w) (method_cache w) (bound w) m
                     (calls w)).

(** [memoizedGetter()]: [return retrieve(cache, this, this::getter)] *)
Definition memoizedGetter (getter : value → M world value) (this : value)
    : M world value :=
  retrieve (new_WeakMap accessor_cache_slot) this
    (invoke (Call "getter" this []) (getter this)).

(** [memoizedSetter(value)]:
    with a setter, [cache.set(this, this::setter(value))];
    without one, [cache.delete(this)] for [undefined] and a TypeError for
    anything else; then [return cache.get(this)]. *)
Definition memoizedSetter (setter : option (value → value → M world value))
    (this : value) (v : value) : M world value :=
  match setter with
  | Some setter =>
      result ← invoke (Call "setter" this [v]) (setter this v);
      Map_set (new_WeakMap accessor_cache_slot) this result
  | None =>
      match v with
      | Primitive PUndefined =>
          _ ← Map_delete (new_WeakMap accessor_cache_slot) this; mret tt
      | _ => throw (TypeError "Default memoized setter only accepts 'undefined'")
      end
  end;;
  Map_get (new_WeakMap accessor_cache_slot) this.

(** ** memoize, class decorator *)

(** The file opens with
    [const { hasOwnProperty, getOwnPropertyNames, getOwnPropertyDescriptor,
             defineProperty } = Object.prototype].
    Of the four names [Object.prototype] has [hasOwnProperty] only;
    [getOwnPropertyNames], [getOwnPropertyDescriptor] and [defineProperty]
    are properties of [Object] itself, so these three bindings hold
    [undefined]. *)
Definition getOwnPropertyNames : option (value → M world (list string)) :=
  None.

(** Calling a binding that may not hold a function. *)
Definition call_binding {A B} (name : string) (f : option (A → M world B))
    (x : A) : M world B :=
  match f with
  | Some f => f x
  | None => throw (TypeError (name +:+ " is not a function"))
  end.

(** [proxyProperties(instances, src, dst)]:
    [getOwnPropertyNames(src).forEach((name) => { ... })].
    [proxy] is the callback of [forEach]; [instances] and [dst] are used
    inside the callback only. *)
Definition proxyProperties (proxy : string → M world unit) (src : value)
    : M world unit :=
  names ← call_binding "getOwnPropertyNames" getOwnPropertyNames src;
  _ ← mapM proxy names;
  mret tt.

(** What a class definition looks at in the value it extends: whether it
    can be called with [new], and its [prototype] property. *)
Record heritage := {
  constructs : bool;
  prototype : value
}.

(** [class MemoizedClass extends target { ... }]: the checks made when
    the class definition is evaluated. *)
Definition class_extends (target : heritage) : M world unit :=
  if constructs target then
    match prototype target with
    | Ref _ | Primitive PNull => mret tt
    | Primitive _ =>
        throw (TypeError "Class extends value does not have valid prototype property")
    end
  else throw (TypeError "Class extends value is not a constructor or null").

(** [memoize(target)], the class branch: after [store], [instances],
    [bound] and [init] are set up, the class [MemoizedClass] is defined,
    [proxyProperties(instances, target.prototype, MemoizedClass.prototype)]
    runs, and the class is returned. [MemoizedClass] is the identity of
    the class that the definition creates. *)
Definition memoize_class (target : heritage) (MemoizedClass : reference)
    (proxy : string → M world unit) : M world value :=
  class_extends target;;
  proxyProperties proxy (prototype target);;
  mret (Ref MemoizedClass).

(** In the constructor of a class that extends another, [this] is not
    initialised before [super(...)] has returned. *)
Definition this_before_super : M world value :=
  throw (ReferenceError
           "Must call super constructor in derived class before accessing 'this'").

(** [new MemoizedClass(...arguments)]:
    [instances.set(this, { store, init }::retrieveByArguments(...arguments))]
    [proxyProperties(instances, this, this)].
    The constructor does not call [super]. The arguments of
    [instances.set] are evaluated from left to right, [this] first.
    [init(...arguments)] is the thunk [() => new curried()], where
    [curried] is [target] bound to the arguments. *)
Definition MemoizedClass (store : MapObject world string value)
    (instances : MapObject world value value)
    (new_target : list value → M world reference)
    (proxy : string → M world unit) (arguments : list value)
    : M world value :=
  this ← this_before_super;
  instance ← retrieveByArguments store
               (λ args, invoke (Call "target" (Primitive PUndefined) args)
                               (r ← new_target args; mret (Ref r)))
               arguments;
  Map_set instances this instance;;
  proxyProperties proxy this;;
  mret this.

Definition initial : world := World 1 ∅ ∅ ∅ ∅ [].

(** Collection of an unreachable reference: the entries the weak maps
    hold under it vanish. *)
Definition collect (r : reference) (w : world) : world :=
  World (guuid w) (delete r (references w)) (delete r (method_cache w))
        (delete r (bound w)) (delete r (accessor_cache w)) (calls w).

(** What happens to the identity registry in the life of a program:
    [retrieve(references, it, () => guuid++)] for a reference [it], and
    collections. *)
Inductive registry_event :=
  | Register (r : reference)
  | Collect (r : reference).

Definition registry_step (w : world) (e : registry_event) : world :=
  match e with
  | Register r =>
      (retrieve (new_WeakMap references_slot) (Ref r) guuid_post_increment w).2
  | Collect r => collect r w
  end.

Definition registry_run (events : list registry_event) : world :=
  foldl registry_step initial events.

End descorators_js.
End Descorators.

(** * use.js *)

Module Use.
Section use_js.
Context `{Host} {W : Type}.

(** A function object: what a call of it runs, and its [length]. *)
Record function := {
  code : value → list value → M W value;
  Function_length : nat
}.

(** What a decorator's target, or a property of a descriptor, may hold:
    a function, or a value that cannot be called. *)
Inductive item :=
  | Callable (f : function)
  | Plain (v : value).

Definition undefined : item := Plain (Primitive PUndefined).

(** [typeof it === "function"] *)
Definition is_function (it : item) : bool :=
  match it with Callable _ => true | Plain _ => false end.

(** [it == null] *)
Definition is_nullish (it : value) : bool :=
  match it with
  | Primitive PUndefined | Primitive PNull => true
  | _ => false
  end.

(** [descriptor == null] *)
Definition absent {A} (descriptor : option A) : bool :=
  match descriptor with None => true | Some _ => false end.

(** A property descriptor, by its own properties. *)
Record descriptor := Descriptor {
  own_value : option item;
  own_get : option item;
  own_set : option item;
  configurable : option value;
  enumerable : option value;
  writable : option value
}.

(** Reading a property that may be absent: [descriptor.get]. *)
Definition read (property : option item) : item := default undefined property.

Definition advice : Type := item → M W item.

(** The aspect object, by the advice it has. The accessor advice answers
    an object whose [get] and [set] are read. *)
Record aspect := {
  aspect_class : option advice;
  aspect_value : option advice;
  aspect_accessor : option (item → item → M W (item * item));
  aspect_get : option advice;
  aspect_set : option advice
}.

(** [typeof aspect === "function"]: the advice becomes the aspect
    [{ class: aspect, value: aspect, get: aspect, set: aspect }]. *)
Definition of_advice (a : advice) : aspect :=
  {| aspect_class := Some a; aspect_value := Some a; aspect_accessor := None;
     aspect_get := Some a; aspect_set := Some a |}.

(** Calling a property of the aspect that may be absent. *)
Definition call_advice (name : string) (a : option advice) (it : item)
    : M W item :=
  match a with
  | Some a => a it
  | None => throw (TypeError (name +:+ " is not a function"))
  end.

(** The decorator that [use(aspect)] returns, applied to
    [(target, name, descriptor)]. It answers what the decorator returns
    and the descriptor as the decorator leaves it. *)
Definition use (a : aspect) (target : item) (name : value)
    (d : option descriptor) : M W (item * option descriptor) :=
  if is_function target && is_nullish name && absent d then
    (* Class decorator *)
    result ← call_advice "aspect.class" (aspect_class a) target;
    mret (result, d)
  else
    match d with
    | None => throw (TypeError "Cannot read properties of undefined")
    | Some d =>
        match own_value d with
        | Some v =>
            (* Method/value decorator *)
            v' ← call_advice "aspect.value" (aspect_value a) v;
            mret (undefined,
                  Some (Descriptor (Some v') (own_get d) (own_set d)
                          (configurable d) (enumerable d) (writable d)))
        | None =>
            (* Accessor decorator *)
            match aspect_accessor a with
            | Some accessor =>
                pair ← accessor (read (own_get d)) (read (own_set d));
                mret (undefined,
                      Some (Descriptor None (Some pair.1) (Some pair.2)
                              (configurable d) (enumerable d) (writable d)))
            | None =>
                get ← match aspect_get a with
                      | Some advice =>
                          g ← advice (read (own_get d)); mret (Some g)
                      | None => mret (own_get d)
                      end;
                set ← match aspect_set a with
                      | Some advice =>
                          (* aspect.set(descriptor.get) *)
                          s ← advice (read get); mret (Some s)
                      | None => mret (own_set d)
                      end;
                mret (undefined,
                      Some (Descriptor None get set
                              (configurable d) (enumerable d) (writable d)))
            end
        end
    end.

End use_js.
End Use.

(** * function.js: once *)

Module Once.
Section once.
Context `{Host}.

(** Each application of [once] has its own variables [done] and
    [result]; the world keeps them in the order of the applications. The
    call log is ghost state, most recent call first. *)
Record world := World {
  closures : list (bool * value);
  calls : list call
}.

Definition log (c : call) (w : world) : world :=
  World (closures w) (c :: calls w).

Definition invoke {A} (c : call) (body : M world A) : M world A :=
  λ w, body (log c w).

(** [let done = false, result = void 0] *)
Definition new_closure : M world nat :=
  λ w, (Normal (length (closures w)),
        World (closures w ++ [(false, Primitive PUndefined)]) (calls w)).

Definition read_done (k : nat) : M world bool :=
  λ w, (Normal (default false (fst <$> closures w !! k)), w).

Definition read_result (k : nat) : M world value :=
  λ w, (Normal (default (Primitive PUndefined) (snd <$> closures w !! k)), w).

Definition write_done (k : nat) (b : bool) : M world unit :=
  λ w, (Normal tt, World (alter (λ c, (b, c.2)) k (closures w)) (calls w)).

Definition write_result (k : nat) (v : value) : M world unit :=
  λ w, (Normal tt, World (alter (λ c, (c.1, v)) k (closures w)) (calls w)).

(** [function wrapper()]:
    [if (done) return result]
    [done = true; result = target.apply(this, arguments); return result] *)
Definition wrapper (k : nat) (target : value → list value → M world value)
    (this : value) (arguments : list value) : M world value :=
  done ← read_done k;
  if done : bool then read_result k
  else
    write_done k true;;
    result ← invoke (Call "target" this arguments) (target this arguments);
    write_result k result;;
    read_result k.

(** [function once(target)], the advice given to [use]. *)
Definition once (target : Use.item) : M world Use.item :=
  k ← new_closure;
  match target with
  | Use.Callable f =>
      mret (Use.Callable
              {| Use.code := wrapper k (Use.code f); Use.Function_length := 0 |})
  | Use.Plain _ => throw (TypeError "Can not decorate non-functions")
  end.



Definition initial : world := World [] [].

End once.
End Once.

(** * curry *)

Module Curry.
Section curry.
Context `{Host} {W : Type}.

(** What a call of a curried function gives: the result of the target, or
    the bound function [curried.bind(this, ...arguments)], kept as the
    receiver and the arguments it binds. *)
Inductive outcome :=
  | Returned (v : value)
  | Partial (this : value) (arguments : list value).

(** [function curried()], of the value advice of [curry] where [bind] is
    [Function.prototype.bind], and [function curriedMethod()] of
    descorators.js:
    [if (arguments.length < target.length)]
    [  return bind.bind(curried, this).apply(void 0, arguments)]
    [else return target.apply(this, arguments)] *)
Definition curried (target : Use.function) (this : value)
    (arguments : list value) : M W outcome :=
  if length arguments <? Use.Function_length target then
    mret (Partial this arguments)
  else
    v ← Use.code target this arguments;
    mret (Returned v).

(** [value(target)]: the advice rejects what is not a function. *)
Definition curry_value (target : Use.item)
    : completion (value → list value → M W outcome) :=
  match target with
  | Use.Callable f => Normal (curried f)
  | Use.Plain _ => Throw (TypeError "Can not curry non-function values")
  end.

(** descorators.js, [function curriedClass()]. [instance] says whether
    [this instanceof curriedClass], as in a call with [new]; [new_target]
    is [new target(...arguments)]. *)
Definition curriedClass (target_name : string) (target_length : nat)
    (new_target : list value → M W value) (instance : bool)
    (arguments : list value) : M W outcome :=
  if instance then
    throw (TypeError ("Curried constructor " +:+ target_name
                      +:+ " prohibits use of 'new'"))
  else if length arguments <? target_length then
    mret (Partial (Primitive PNull) arguments)
  else
    v ← new_target arguments;
    mret (Returned v).

(** A call of a bound function: the receiver of the call is dropped, and
    the arguments follow the bound ones. *)
Definition call_bound (f : value → list value → M W outcome)
    (this : value) (bound : list value) (arguments : list value) : M W outcome :=
  f this (bound ++ arguments).

(** A caller that applies what it got to the next batch of arguments, as
    in [f(a)(b, c)(d)], for as long as it got a bound function; it answers
    what it got last and the batches it did not use. *)
Fixpoint call_each (f : value → list value → M W outcome) (o : outcome)
    (batches : list (list value)) : M W (outcome * list (list value)) :=
  match o, batches with
  | Partial this bound, batch :: rest =>
      o' ← call_bound f this bound batch;
      call_each f o' rest
  | _, _ => mret (o, batches)
  end.

End curry.
End Curry.

(** * Access flags and [accessor] *)

Module Access.
Section access.
Context `{Host} {W : Type}.

(** The host's [instanceof Boolean] and [valueOf] on an object. *)
Context (instanceof_Boolean : reference → bool).
Context (valueOf : reference → completion value).

(** What a flag decorator gives: itself bound to a receiver, or the
    descriptor as it leaves it. *)
Inductive flag_outcome :=
  | BoundTo (this : value)
  | Decorated (d : Use.descriptor (W := W)).

(** [(this instanceof Boolean) ? this.valueOf() : true]. The files are
    modules, so their functions are strict: a primitive [this] is not
    wrapped, and is no instance of [Boolean]. *)
Definition flag_of (this : value) : completion value :=
  match this with
  | Ref r =>
      if instanceof_Boolean r then valueOf r
      else Normal (Primitive (PBoolean true))
  | Primitive _ => Normal (Primitive (PBoolean true))
  end.

(** The common shape of [configurable], [enumerable] and [writable]:
    [if (typeof target === "boolean") return f.bind(target)]
    [descriptor.flag = (this instanceof Boolean) ? this.valueOf(): true] *)
Definition access_flag
    (put : value → Use.descriptor (W := W) → Use.descriptor (W := W))
    (this : value) (target : Use.item (W := W))
    (d : option (Use.descriptor (W := W))) : completion flag_outcome :=
  match target with
  | Use.Plain (Primitive (PBoolean b)) => Normal (BoundTo (Primitive (PBoolean b)))
  | _ =>
      match d with
      | None => Throw (TypeError "Cannot set properties of undefined")
      | Some d =>
          match flag_of this with
          | Normal flag => Normal (Decorated (put flag d))
          | Throw e => Throw e
          end
      end
  end.

Definition configurable :=
  access_flag (λ flag d,
    Use.Descriptor (Use.own_value d) (Use.own_get d) (Use.own_set d)
      (Some flag) (Use.enumerable d) (Use.writable d)).

Definition enumerable :=
  access_flag (λ flag d,
    Use.Descriptor (Use.own_value d) (Use.own_get d) (Use.own_set d)
      (Use.configurable d) (Some flag) (Use.writable d)).

Definition writable :=
  access_flag (λ flag d,
    Use.Descriptor (Use.own_value d) (Use.own_get d) (Use.own_set d)
      (Use.configurable d) (Use.enumerable d) (Some flag)).

(** [ability(options, ...rest)] with a string for [options]: the options
    object [{ [options]: true }], to which each name of [rest] is added. *)
Definition ability_options (options : string) (rest : list string)
    : gmap string bool :=
  foldl (λ o name, <[name := true]> o) {[options := true]} rest.

(** The decorator [ability] returns:
    [descriptorAccessKeys.forEach((name) =>]
    [  descriptor[name] = !!options[name])] *)
Definition ability (options : string) (rest : list string)
    (d : option (Use.descriptor (W := W)))
    : completion (Use.descriptor (W := W)) :=
  let o := ability_options options rest in
  let flag name := Some (Primitive (PBoolean (default false (o !! name)))) in
  match d with
  | None => Throw (TypeError "Cannot set properties of undefined")
  | Some d =>
      Normal (Use.Descriptor (Use.own_value d) (Use.own_get d) (Use.own_set d)
                (flag "configurable") (flag "enumerable") (flag "writable"))
  end.

(** [accessor(target, name, descriptor)]: the three refusals, then
    [descriptor.get = descriptor.set = descriptor.value] and
    [delete descriptor.value]. The messages are templates on [name]. *)
Definition accessor (target : Use.item (W := W)) (name : primitive)
    (d : option (Use.descriptor (W := W)))
    : completion (Use.descriptor (W := W)) :=
  let refuse (suffix : string) :=
    match ToString name with
    | Normal text => Throw (TypeError (text +:+ suffix))
    | Throw e => Throw e
    end in
  match d with
  | Some d =>
      match Use.own_value d with
      | Some (Use.Plain _) => refuse " is not a function"
      | own =>
          if negb (Use.absent (Use.own_get d)) || negb (Use.absent (Use.own_set d))
          then refuse " is already an accessors"
          else
            Normal (Use.Descriptor None (Some (Use.read own)) (Some (Use.read own))
                      (Use.configurable d) (Use.enumerable d) (Use.writable d))
      end
  | None =>
      if Use.is_function target && Use.is_nullish (Primitive name) then
        match ToString name with
        | Normal text => Throw (TypeError ("Can not decorate class " +:+ text))
        | Throw e => Throw e
        end
      else Throw (TypeError "Cannot set properties of undefined")
  end.

End access.
End Access.

(** * Invariants *)

(** The identity registry, seen as the counter [g] and the entries [m]:
    the counter never went below its start, every id in use was handed
    out by the counter, and no id is in use for two references. *)
Definition registry_ok (g : N) (m : gmap reference N) : Prop :=
  (1 ≤ g)%N
  ∧ (∀ r i, m !! r = Some i → (1 ≤ i < g)%N)
  ∧ (∀ a b i, m !! a = Some i → m !! b = Some i → a = b).

(** * Properties *)

(** ** The monad and the strings *)

Section basics.
Context `{Host}.

Lemma bind_normal {W A B} (m : M W A) (k : A → M W B) w a w' :
  m w = (Normal a, w') → (m ≫= k) w = k a w'.
Proof. intros E. unfold mbind, M_bind. by rewrite E. Qed.

Lemma bind_throw {W A B} (m : M W A) (k : A → M W B) w e w' :
  m w = (Throw e, w') → (m ≫= k) w = (Throw e, w').
Proof. intros E. unfold mbind, M_bind. by rewrite E. Qed.

End basics.

Lemma strip_self p rest : strip p (p +:+ rest) = Some rest.
Proof.
  induction p as [|a p IH]; simpl; [done|].
  by rewrite decide_True.
Qed.

Lemma strip_Some p s rest : strip p s = Some rest → s = p +:+ rest.
Proof.
  revert s. induction p as [|a p IH]; intros s; simpl.
  - by intros [= ->].
  - destruct s as [|b s]; [done|].
    case_decide; [|done]. intros E. subst b. by rewrite (IH _ E).
Qed.

(** Replacing the first occurrence of a pattern by the pattern itself
    changes nothing. *)
Lemma String_replace_same p s : String_replace p p s = s.
Proof.
  induction s as [|c s IH].
  - simpl. destruct (strip p EmptyString) eqn:E; [|done].
    by apply strip_Some in E.
  - simpl. destruct (strip p (String c s)) eqn:E.
    + by apply strip_Some in E.
    + by rewrite IH.
Qed.

(** ** Composite keys *)

Section keys.
Context `{Host}.

(** The token of a string is the string between two quotes: the quotes it
    contains are left as they are, in both generations of the code. *)
Lemma keyFrom_token_string (s : string) (w : Function.world) :
  Function.keyFrom_token (Primitive (PString s)) w
  = (Normal (dquote +:+ s +:+ dquote), w).
Proof. simpl. by rewrite String_replace_same. Qed.

Lemma keyFor_token_string (s : string) (w : Descorators.world) :
  Descorators.keyFor_token (Primitive (PString s)) w
  = (Normal (dquote +:+ s +:+ dquote), w).
Proof. simpl. by rewrite String_replace_same. Qed.

(** function.js: a reference-typed parameter stops [keyFrom] with a
    ReferenceError, whatever the other parameters are. *)
Lemma keyFrom_token_reference (r : reference) (w : Function.world) :
  Function.keyFrom_token (Ref r) w
  = (Throw (ReferenceError "references is not defined"), w).
Proof. reflexivity. Qed.

(** descorators.js: the token of a reference is its surrogate id between
    angle brackets; the id is the registered one, or the counter's value,
    which is then registered. *)
Lemma keyFor_token_reference (r : reference) (w : Descorators.world) :
  Descorators.keyFor_token (Ref r) w
  = match Descorators.references w !! r with
    | Some id => (Normal ("<" +:+ pretty id +:+ ">"), w)
    | None =>
        (Normal ("<" +:+ pretty (Descorators.guuid w) +:+ ">"),
         Descorators.World (N.succ (Descorators.guuid w))
           (<[r := Descorators.guuid w]> (Descorators.references w))
           (Descorators.method_cache w) (Descorators.bound w)
           (Descorators.accessor_cache w) (Descorators.calls w))
    end.
Proof.
  unfold Descorators.keyFor_token, Descorators.retrieve; simpl.
  unfold mbind, M_bind; simpl.
  destruct (Descorators.references w !! r) as [id|] eqn:E; simpl.
  - by rewrite lookup_total_alt, E.
  - by rewrite lookup_total_insert_eq.
Qed.

End keys.

Section key_collisions.
Context `{Host}.

(** C1 (code defect): the one-element list holding the text made of
    [a], a quote, a comma, a quote and [b], and the two-element list
    holding the texts [a] and [b], get the same key
    from [Cache.keyFrom] and from [keyFor], in every world: quotes inside
    a text are not escaped, so lists of different length do share a key. *)
Theorem keys_collide_across_lengths :
  let one := [Primitive (PString ("a" +:+ dquote +:+ "," +:+ dquote +:+ "b"))] in
  let two := [Primitive (PString "a"); Primitive (PString "b")] in
  let key := dquote +:+ "a" +:+ dquote +:+ "," +:+ dquote +:+ "b" +:+ dquote in
  length one ≠ length two
  ∧ (∀ w, Function.keyFrom one w = (Normal key, w)
          ∧ Function.keyFrom two w = (Normal key, w))
  ∧ (∀ w, Descorators.keyFor one w = (Normal key, w)
          ∧ Descorators.keyFor two w = (Normal key, w)).
Proof.
  repeat split; try done.
Qed.

(** C5 (code defect): for the text made of [a], a quote and [b], both
    key builders give the key
    made of a quote, the text as it is, and a quote; the embedded quote is
    not escaped. This is so for every text: the replacement made by the
    code puts back the character it replaces. In function.js, moreover, a
    reference-typed parameter gets no token: the key builder stops with a
    ReferenceError. *)
Theorem key_quotes_not_escaped :
  let text := "a" +:+ dquote +:+ "b" in
  (∀ w, Function.keyFrom [Primitive (PString text)] w
        = (Normal (dquote +:+ text +:+ dquote), w))
  ∧ (∀ w, Descorators.keyFor [Primitive (PString text)] w
          = (Normal (dquote +:+ text +:+ dquote), w))
  ∧ (∀ s w, Function.keyFrom_token (Primitive (PString s)) w
            = (Normal (dquote +:+ s +:+ dquote), w))
  ∧ (∀ s w, Descorators.keyFor_token (Primitive (PString s)) w
            = (Normal (dquote +:+ s +:+ dquote), w))
  ∧ (∀ r w, Function.keyFrom [Ref r] w
            = (Throw (ReferenceError "references is not defined"), w)).
Proof.
  repeat split; try done.
  - apply keyFrom_token_string.
  - apply keyFor_token_string.
Qed.

End key_collisions.

(** ** The identity registry *)

Lemma registry_ok_initial : registry_ok 1 ∅.
Proof. split; [done|]. split; intros *; by rewrite lookup_empty. Qed.

Lemma registry_ok_register g m r :
  registry_ok g m → m !! r = None → registry_ok (N.succ g) (<[r := g]> m).
Proof.
  intros (Hstart & Hrange & Hinj) Hfresh. split; [lia|]. split.
  - intros r' i. rewrite lookup_insert. case_decide.
    + intros [= <-]. lia.
    + intros E. apply Hrange in E. lia.
  - intros a b i. rewrite !lookup_insert. repeat case_decide; subst.
    + done.
    + intros [= <-] E. apply Hrange in E. lia.
    + intros E [= <-]. apply Hrange in E. lia.
    + apply Hinj.
Qed.

Lemma registry_ok_collect g m r : registry_ok g m → registry_ok g (delete r m).
Proof.
  intros (Hstart & Hrange & Hinj). split; [done|]. split.
  - intros r' i E. apply lookup_delete_Some in E as [_ E]. eauto.
  - intros a b i Ea Eb.
    apply lookup_delete_Some in Ea as [_ Ea].
    apply lookup_delete_Some in Eb as [_ Eb]. eauto.
Qed.

Section registry.
Context `{Host}.

(** [Cache.references.get(it)] on a reference: the registered id, or the
    counter's value, which is registered while the counter moves on. *)
Lemma references_get_spec (r : reference) (w : Function.world) :
  Function.DefaultMap_get Function.references (Ref r) w
  = match Function.registry w !! r with
    | Some id => (Normal id, w)
    | None =>
        (Normal (Function.Cache_guuid w),
         Function.World (N.succ (Function.Cache_guuid w))
           (<[r := Function.Cache_guuid w]> (Function.registry w))
           (Function.scopes w) (Function.accessor_cache w)
           (Function.accessor_invalid w) (Function.next_address w)
           (Function.calls w))
    end.
Proof.
  unfold Function.DefaultMap_get, Function.DefaultMap_fetch; simpl.
  unfold mbind, M_bind; simpl.
  destruct (Function.registry w !! r) as [id|] eqn:E; simpl.
  - by rewrite lookup_total_alt, E.
  - by rewrite lookup_total_insert_eq.
Qed.

(** [retrieve(references, it, () => guuid++)] on a reference, likewise. *)
Lemma retrieve_references_spec (r : reference) (w : Descorators.world) :
  Descorators.retrieve (new_WeakMap Descorators.references_slot) (Ref r)
    Descorators.guuid_post_increment w
  = match Descorators.references w !! r with
    | Some id => (Normal id, w)
    | None =>
        (Normal (Descorators.guuid w),
         Descorators.World (N.succ (Descorators.guuid w))
           (<[r := Descorators.guuid w]> (Descorators.references w))
           (Descorators.method_cache w) (Descorators.bound w)
           (Descorators.accessor_cache w) (Descorators.calls w))
    end.
Proof.
  unfold Descorators.retrieve; simpl.
  unfold mbind, M_bind; simpl.
  destruct (Descorators.references w !! r) as [id|] eqn:E; simpl.
  - by rewrite lookup_total_alt, E.
  - by rewrite lookup_total_insert_eq.
Qed.

Lemma Function_step_ok w e :
  registry_ok (Function.Cache_guuid w) (Function.registry w) →
  registry_ok (Function.Cache_guuid (Function.registry_step w e))
              (Function.registry (Function.registry_step w e))
  ∧ (Function.Cache_guuid w ≤ Function.Cache_guuid (Function.registry_step w e))%N.
Proof.
  intros Hok. destruct e as [r|r]; simpl.
  - rewrite references_get_spec.
    destruct (Function.registry w !! r) eqn:E; simpl.
    + split; [done|lia].
    + split; [by apply registry_ok_register|lia].
  - split; [by apply registry_ok_collect|lia].
Qed.

Lemma Function_run_ok events w :
  registry_ok (Function.Cache_guuid w) (Function.registry w) →
  let w' := foldl Function.registry_step w events in
  registry_ok (Function.Cache_guuid w') (Function.registry w')
  ∧ (Function.Cache_guuid w ≤ Function.Cache_guuid w')%N.
Proof.
  revert w. induction events as [|e events IH]; intros w Hok; simpl.
  - split; [done|lia].
  - destruct (Function_step_ok w e Hok) as [Hok' Hle].
    destruct (IH _ Hok') as [Hok'' Hle']. split; [done|lia].
Qed.

Lemma Descorators_step_ok w e :
  registry_ok (Descorators.guuid w) (Descorators.references w) →
  registry_ok (Descorators.guuid (Descorators.registry_step w e))
              (Descorators.references (Descorators.registry_step w e))
  ∧ (Descorators.guuid w ≤ Descorators.guuid (Descorators.registry_step w e))%N.
Proof.
  intros Hok. destruct e as [r|r]; simpl.
  - rewrite retrieve_references_spec.
    destruct (Descorators.references w !! r) eqn:E; simpl.
    + split; [done|lia].
    + split; [by apply registry_ok_register|lia].
  - split; [by apply registry_ok_collect|lia].
Qed.

Lemma Descorators_run_ok events w :
  registry_ok (Descorators.guuid w) (Descorators.references w) →
  let w' := foldl Descorators.registry_step w events in
  registry_ok (Descorators.guuid w') (Descorators.references w')
  ∧ (Descorators.guuid w ≤ Descorators.guuid w')%N.
Proof.
  revert w. induction events as [|e events IH]; intros w Hok; simpl.
  - split; [done|lia].
  - destruct (Descorators_step_ok w e Hok) as [Hok' Hle].
    destruct (IH _ Hok') as [Hok'' Hle']. split; [done|lia].
Qed.

End registry.

Section registry_claim.
Context `{Host}.

(** C8: in every world reached from the initial one by registrations and
    collections, two registered (hence live) references have the same
    surrogate id exactly when they are the same reference; a registered
    reference keeps its id, which is below the counter; an unregistered
    one is given the counter's value, and the counter moves up by one; the
    counter never moves down, so an id is not handed out again while the
    reference that got it is registered. This holds for [Cache.references]
    of function.js and for [references] of descorators.js. *)
Theorem surrogate_ids_identify_live_references :
  (∀ events,
     let w := Function.registry_run events in
     (∀ a b i j,
        Function.registry w !! a = Some i → Function.registry w !! b = Some j →
        (i = j ↔ a = b))
     ∧ (∀ a i,
          Function.registry w !! a = Some i →
          (1 ≤ i < Function.Cache_guuid w)%N
          ∧ Function.DefaultMap_get Function.references (Ref a) w = (Normal i, w))
     ∧ (∀ a,
          Function.registry w !! a = None →
          ∃ w',
            Function.DefaultMap_get Function.references (Ref a) w
            = (Normal (Function.Cache_guuid w), w')
            ∧ Function.Cache_guuid w' = N.succ (Function.Cache_guuid w)
            ∧ Function.registry w'
              = <[a := Function.Cache_guuid w]> (Function.registry w))
     ∧ (∀ more,
          (Function.Cache_guuid w
           ≤ Function.Cache_guuid (Function.registry_run (events ++ more)))%N))
  ∧ (∀ events,
       let w := Descorators.registry_run events in
       let idFor a :=
         Descorators.retrieve (new_WeakMap Descorators.references_slot) (Ref a)
           Descorators.guuid_post_increment in
       (∀ a b i j,
          Descorators.references w !! a = Some i →
          Descorators.references w !! b = Some j →
          (i = j ↔ a = b))
       ∧ (∀ a i,
            Descorators.references w !! a = Some i →
            (1 ≤ i < Descorators.guuid w)%N ∧ idFor a w = (Normal i, w))
       ∧ (∀ a,
            Descorators.references w !! a = None →
            ∃ w',
              idFor a w = (Normal (Descorators.guuid w), w')
              ∧ Descorators.guuid w' = N.succ (Descorators.guuid w)
              ∧ Descorators.references w'
                = <[a := Descorators.guuid w]> (Descorators.references w))
       ∧ (∀ more,
            (Descorators.guuid w
             ≤ Descorators.guuid (Descorators.registry_run (events ++ more)))%N)).
Proof.
  split; intros events.
  - destruct (Function_run_ok events Function.initial registry_ok_initial)
      as [(Hstart & Hrange & Hinj) _].
    fold (Function.registry_run events) in Hstart, Hrange, Hinj.
    cbv zeta. split_and!.
    + intros a b i j Ea Eb. split; [intros ->; eauto | intros ->; congruence].
    + intros a i Ea. split; [by apply (Hrange a)|].
      by rewrite references_get_spec, Ea.
    + intros a Ea. rewrite references_get_spec, Ea. eauto.
    + intros more. unfold Function.registry_run. rewrite foldl_app.
      by apply Function_run_ok.
  - destruct (Descorators_run_ok events Descorators.initial registry_ok_initial)
      as [(Hstart & Hrange & Hinj) _].
    fold (Descorators.registry_run events) in Hstart, Hrange, Hinj.
    cbv zeta. split_and!.
    + intros a b i j Ea Eb. split; [intros ->; eauto | intros ->; congruence].
    + intros a i Ea. split; [by apply (Hrange a)|].
      by rewrite retrieve_references_spec, Ea.
    + intros a Ea. rewrite retrieve_references_spec, Ea. eauto.
    + intros more. unfold Descorators.registry_run. rewrite foldl_app.
      by apply Descorators_run_ok.
Qed.

End registry_claim.

(** ** function.js: the cache *)

Section function_cache.
Context `{Host}.
Import Function.

(** [Cache.keyFrom] neither reads nor changes the world. *)
Lemma keyFrom_token_pure (it : value) :
  ∃ c, ∀ w, keyFrom_token it w = (c, w).
Proof.
  destruct it as [p|r]; [destruct p|]; simpl; eauto.
Qed.

Lemma mapM_keyFrom_token_pure (parameters : list value) :
  ∃ c, ∀ w, mapM keyFrom_token parameters w = (c, w).
Proof.
  induction parameters as [|it parameters [cs IH]]; simpl.
  - by eexists.
  - destruct (keyFrom_token_pure it) as [[token|e] Hit].
    + destruct cs as [tokens|e].
      * exists (Normal (token :: tokens)). intros w.
        unfold mbind, M_bind. by rewrite Hit, IH.
      * exists (Throw e). intros w.
        unfold mbind, M_bind. by rewrite Hit, IH.
    + exists (Throw e). intros w. unfold mbind, M_bind. by rewrite Hit.
Qed.

Lemma keyFrom_pure (parameters : list value) :
  ∃ c, ∀ w, keyFrom parameters w = (c, w).
Proof.
  destruct (mapM_keyFrom_token_pure parameters) as [[tokens|e] Hts].
  - exists (Normal (join "," tokens)). intros w.
    unfold keyFrom, mbind, M_bind. by rewrite Hts.
  - exists (Throw e). intros w. unfold keyFrom, mbind, M_bind. by rewrite Hts.
Qed.

Lemma keyFrom_anywhere parameters w key w' :
  (keyFrom parameters w).1 = Normal key → keyFrom parameters w' = (Normal key, w').
Proof.
  destruct (keyFrom_pure parameters) as [c Hc]. rewrite !Hc. simpl. by intros ->.
Qed.

(** [this.store.get(context)] creates the scope of [context] when it is
    missing, and touches nothing else. *)
Lemma Cache_store_get_spec (context : reference) (w : world) :
  DefaultMap_get Cache_store (Ref context) w
  = match scopes w !! context with
    | Some m => (Normal m, w)
    | None =>
        (Normal ∅,
         World (Cache_guuid w) (registry w) (<[context := ∅]> (scopes w))
               (accessor_cache w) (accessor_invalid w) (next_address w) (calls w))
    end.
Proof.
  unfold DefaultMap_get, DefaultMap_fetch; simpl.
  unfold mbind, M_bind; simpl.
  destruct (scopes w !! context) as [m|] eqn:E; simpl.
  - by rewrite lookup_total_alt, E.
  - by rewrite lookup_total_insert_eq.
Qed.

Lemma Cache_store_get_entry context w key :
  (scopes (DefaultMap_get Cache_store (Ref context) w).2 !!! context) !! key
  = (scopes w !!! context) !! key.
Proof.
  rewrite Cache_store_get_spec.
  destruct (scopes w !! context) as [m|] eqn:E; simpl; [done|].
  by rewrite lookup_total_insert_eq, (lookup_total_alt (scopes w)), E.
Qed.

Lemma Cache_store_get_calls context w :
  calls (DefaultMap_get Cache_store (Ref context) w).2 = calls w.
Proof.
  rewrite Cache_store_get_spec. by destruct (scopes w !! context).
Qed.

Lemma Cache_store_get_normal context w :
  ∃ m, DefaultMap_get Cache_store (Ref context) w
       = (Normal m, (DefaultMap_get Cache_store (Ref context) w).2).
Proof.
  rewrite Cache_store_get_spec. destruct (scopes w !! context); eauto.
Qed.

(** The three outcomes of the scope's [fetch(key, fallback)]. *)
Lemma scope_fetch_hit context key fallback w v :
  (scopes w !!! context) !! key = Some v →
  DefaultMap_fetch (scope context) key fallback w = (Normal v, w).
Proof.
  intros E. unfold DefaultMap_fetch; simpl. unfold mbind, M_bind; simpl.
  rewrite E; simpl. by rewrite lookup_total_alt, E.
Qed.

Lemma scope_fetch_miss context key (f : M world value) w v w' :
  (scopes w !!! context) !! key = None →
  f w = (Normal v, w') →
  DefaultMap_fetch (scope context) key (Some f) w
  = (Normal v,
     World (Cache_guuid w') (registry w')
           (<[context := <[key := v]> (scopes w' !!! context)]> (scopes w'))
           (accessor_cache w') (accessor_invalid w') (next_address w') (calls w')).
Proof.
  intros E Hf. unfold DefaultMap_fetch; simpl. unfold mbind, M_bind; simpl.
  rewrite E; simpl. rewrite Hf; simpl.
  by rewrite !lookup_total_insert_eq.
Qed.

Lemma scope_fetch_throw context key (f : M world value) w e w' :
  (scopes w !!! context) !! key = None →
  f w = (Throw e, w') →
  DefaultMap_fetch (scope context) key (Some f) w = (Throw e, w').
Proof.
  intros E Hf. unfold DefaultMap_fetch; simpl. unfold mbind, M_bind; simpl.
  rewrite E; simpl. by rewrite Hf.
Qed.

(** [Cache.fetch] is the scope's [fetch] in the world where the scope
    exists, once the key is built. *)
Lemma Cache_fetch_spec context parameters key fallback w :
  (keyFrom parameters w).1 = Normal key →
  Cache_fetch (Ref context) parameters fallback w
  = DefaultMap_fetch (scope context) key fallback
      (DefaultMap_get Cache_store (Ref context) w).2.
Proof.
  intros Hkey. unfold Cache_fetch.
  destruct (Cache_store_get_normal context w) as [m Hm].
  rewrite (bind_normal _ _ _ _ _ Hm).
  by rewrite (bind_normal _ _ _ _ _ (keyFrom_anywhere _ _ _ _ Hkey)).
Qed.

End function_cache.

Section function_fetch_claims.
Context `{Host}.
Import Function.


(** C3: take a receiver and an argument list whose key has no entry, and
    a [compute] that throws [e] (its call is recorded as [c]). [fetch]
    throws the same [e], after one call of [compute], and the key still
    has no entry. A following [fetch] with the same receiver and
    arguments calls the thunk it is given (recorded as [c2]) and ends the
    way that thunk does. *)
Theorem fetch_does_not_cache_failure (w : world) (context : reference)
    (A : list value) (key : string) (e : exn) (c c2 : call)
    (outcome : completion value) :
  (keyFrom A w).1 = Normal key →
  (scopes w !!! context) !! key = None →
  ∃ w1 w2,
    Cache_fetch (Ref context) A (Some (invoke c (throw e))) w = (Throw e, w1)
    ∧ calls w1 = c :: calls w
    ∧ (scopes w1 !!! context) !! key = None
    ∧ Cache_fetch (Ref context) A (Some (invoke c2 (lift outcome))) w1
      = (outcome, w2)
    ∧ calls w2 = c2 :: c :: calls w.
Proof.
  intros HA Hmiss.
  rewrite (Cache_fetch_spec _ _ _ _ _ HA).
  pose proof (Cache_store_get_entry context w key) as Hentry.
  pose proof (Cache_store_get_calls context w) as Hcalls.
  destruct (DefaultMap_get Cache_store (Ref context) w) as [? ws]; simpl in *.
  rewrite Hmiss in Hentry.
  exists (log c ws).
  assert (HA1 : (keyFrom A (log c ws)).1 = Normal key)
    by (erewrite keyFrom_anywhere; done).
  rewrite (Cache_fetch_spec _ _ _ _ _ HA1).
  pose proof (Cache_store_get_entry context (log c ws) key) as Hentry1.
  pose proof (Cache_store_get_calls context (log c ws)) as Hcalls1.
  destruct (DefaultMap_get Cache_store (Ref context) (log c ws)) as [? ws1];
    simpl in *.
  rewrite Hentry in Hentry1.
  destruct outcome as [v2|e2]; eexists; split_and!.
  - by apply scope_fetch_throw.
  - by rewrite Hcalls.
  - done.
  - by apply scope_fetch_miss.
  - simpl. by rewrite Hcalls1, Hcalls.
  - by apply scope_fetch_throw.
  - by rewrite Hcalls.
  - done.
  - by apply scope_fetch_throw.
  - simpl. by rewrite Hcalls1, Hcalls.
Qed.

End function_fetch_claims.

Section function_fetch_runs.
#[local] Existing Instance integral_host.


(** A compute that throws the text [boom], then one that returns 7. *)
Lemma fetch_does_not_cache_failure_witness :
  let obj := AnObject 1 in
  let A := [Primitive (PBoolean true)] in
  let c := Call "compute" (Primitive PUndefined) [] in
  let boom := Thrown (Primitive (PString "boom")) in
  let seven := Primitive (PNumber 7%Z) in
  ∃ w1 w2,
    Function.Cache_fetch (Ref obj) A
      (Some (Function.invoke c (throw boom))) Function.initial
    = (Throw boom, w1)
    ∧ Function.calls w1 = c :: Function.calls Function.initial
    ∧ (Function.scopes w1 !!! obj) !! "true" = None
    ∧ Function.Cache_fetch (Ref obj) A
        (Some (Function.invoke c (lift (Normal seven)))) w1
      = (Normal seven, w2)
    ∧ Function.calls w2 = c :: c :: Function.calls Function.initial.
Proof.
  intros obj A c boom seven.
  apply (fetch_does_not_cache_failure Function.initial obj A "true" boom c c
           (Normal seven));
    reflexivity.
Defined.

End function_fetch_runs.

(** ** descorators.js: the method cache *)

Section descorators_cache.
Context `{Host}.
Import Descorators.

(** [keyFor] reads and changes the registry only: run in a world with the
    same registry, it gives the same key and the same registry. *)
Lemma keyFor_token_frame (it : value) (w w0 : world) c w' :
  keyFor_token it w = (c, w') →
  guuid w0 = guuid w → references w0 = references w →
  keyFor_token it w0
  = (c, World (guuid w') (references w') (method_cache w0) (bound w0)
              (accessor_cache w0) (calls w0)).
Proof.
  intros Hrun Hg Hm. destruct it as [p|r].
  - destruct w0. simpl in Hg, Hm. subst.
    destruct p; simpl in *; unfold lift, mret, M_ret in *;
      injection Hrun as <- <-; done.
  - rewrite keyFor_token_reference in *. rewrite Hm, Hg.
    destruct w0; simpl in *.
    destruct (references w !! r); injection Hrun as <- <-; simpl; congruence.
Qed.

Lemma mapM_keyFor_token_frame (args : list value) (w w0 : world) c w' :
  mapM keyFor_token args w = (c, w') →
  guuid w0 = guuid w → references w0 = references w →
  mapM keyFor_token args w0
  = (c, World (guuid w') (references w') (method_cache w0) (bound w0)
              (accessor_cache w0) (calls w0)).
Proof.
  revert w w0 c w'. induction args as [|it args IH]; intros w w0 c w'; simpl.
  - unfold mret, M_ret. intros [= <- <-] Hg Hm. destruct w0; simpl in *.
    congruence.
  - unfold mbind, M_bind.
    destruct (keyFor_token it w) as [[token|e] w1] eqn:Hit; intros Hrun Hg Hm;
      rewrite (keyFor_token_frame _ _ _ _ _ Hit Hg Hm).
    + destruct (mapM keyFor_token args w1) as [[tokens|e] w2] eqn:Hargs.
      * erewrite IH by done. simpl. unfold mret, M_ret in *.
        by injection Hrun as <- <-.
      * erewrite IH by done. simpl. by injection Hrun as <- <-.
    + by injection Hrun as <- <-.
Qed.

Lemma keyFor_frame (args : list value) (w w0 : world) c w' :
  keyFor args w = (c, w') →
  guuid w0 = guuid w → references w0 = references w →
  keyFor args w0
  = (c, World (guuid w') (references w') (method_cache w0) (bound w0)
              (accessor_cache w0) (calls w0)).
Proof.
  unfold keyFor. intros Hrun Hg Hm.
  destruct (mapM keyFor_token args w) as [[tokens|e] w1] eqn:Hargs.
  - rewrite (bind_normal _ _ _ _ _ Hargs) in Hrun.
    rewrite (bind_normal _ _ _ _ _
               (mapM_keyFor_token_frame _ _ _ _ _ Hargs Hg Hm)).
    unfold mret, M_ret in *. by injection Hrun as <- <-.
  - rewrite (bind_throw _ _ _ _ _ Hargs) in Hrun.
    rewrite (bind_throw _ _ _ _ _
               (mapM_keyFor_token_frame _ _ _ _ _ Hargs Hg Hm)).
    by injection Hrun as <- <-.
Qed.

(** The registry only grows while a key is built, and building the key of
    the same arguments again, in a world whose registry holds what the
    first run left, gives the same key and changes nothing. *)
Lemma keyFor_token_grows (it : value) (w : world) c w' :
  keyFor_token it w = (c, w') → references w ⊆ references w'.
Proof.
  destruct it as [p|r].
  - destruct p; simpl; unfold lift, mret, M_ret; by intros [= <- <-].
  - rewrite keyFor_token_reference.
    destruct (references w !! r) eqn:E; intros [= <- <-]; simpl; [done|].
    by apply insert_subseteq.
Qed.

Lemma mapM_keyFor_token_grows (args : list value) (w : world) c w' :
  mapM keyFor_token args w = (c, w') → references w ⊆ references w'.
Proof.
  revert w c w'. induction args as [|it args IH]; intros w c w'; simpl.
  - unfold mret, M_ret. by intros [= <- <-].
  - destruct (keyFor_token it w) as [[token|e] w1] eqn:Hit.
    + rewrite (bind_normal _ _ _ _ _ Hit).
      destruct (mapM keyFor_token args w1) as [[tokens|e] w2] eqn:Hargs.
      * rewrite (bind_normal _ _ _ _ _ Hargs). unfold mret, M_ret.
        intros [= <- <-]. etrans; [by eapply keyFor_token_grows|by eapply IH].
      * rewrite (bind_throw _ _ _ _ _ Hargs).
        intros [= <- <-]. etrans; [by eapply keyFor_token_grows|by eapply IH].
    + rewrite (bind_throw _ _ _ _ _ Hit).
      intros [= <- <-]. by eapply keyFor_token_grows.
Qed.

Lemma keyFor_token_replay (it : value) (w w0 : world) c w' :
  keyFor_token it w = (c, w') → references w' ⊆ references w0 →
  keyFor_token it w0 = (c, w0).
Proof.
  destruct it as [p|r].
  - destruct p; simpl; unfold lift, mret, M_ret; by intros [= <- <-].
  - rewrite !keyFor_token_reference.
    destruct (references w !! r) as [id|] eqn:E; intros [= <- <-] Hsub; simpl in *.
    + by rewrite (lookup_weaken _ _ _ _ E Hsub).
    + by rewrite (lookup_weaken _ _ r (guuid w) (lookup_insert_eq _ _ _) Hsub).
Qed.

Lemma mapM_keyFor_token_replay (args : list value) (w w0 : world) c w' :
  mapM keyFor_token args w = (c, w') → references w' ⊆ references w0 →
  mapM keyFor_token args w0 = (c, w0).
Proof.
  revert w c w'. induction args as [|it args IH]; intros w c w'; simpl.
  - unfold mret, M_ret. by intros [= <- <-].
  - destruct (keyFor_token it w) as [[token|e] w1] eqn:Hit.
    + rewrite (bind_normal _ _ _ _ _ Hit).
      destruct (mapM keyFor_token args w1) as [[tokens|e] w2] eqn:Hargs.
      * rewrite (bind_normal _ _ _ _ _ Hargs). unfold mret, M_ret.
        intros [= <- <-] Hsub.
        assert (Hsub1 : references w1 ⊆ references w0)
          by (etrans; [by eapply mapM_keyFor_token_grows|done]).
        rewrite (bind_normal _ _ _ _ _ (keyFor_token_replay _ _ _ _ _ Hit Hsub1)).
        by rewrite (bind_normal _ _ _ _ _ (IH _ _ _ Hargs Hsub)).
      * rewrite (bind_throw _ _ _ _ _ Hargs).
        intros [= <- <-] Hsub.
        assert (Hsub1 : references w1 ⊆ references w0)
          by (etrans; [by eapply mapM_keyFor_token_grows|done]).
        rewrite (bind_normal _ _ _ _ _ (keyFor_token_replay _ _ _ _ _ Hit Hsub1)).
        by rewrite (bind_throw _ _ _ _ _ (IH _ _ _ Hargs Hsub)).
    + rewrite (bind_throw _ _ _ _ _ Hit).
      intros [= <- <-] Hsub.
      by rewrite (bind_throw _ _ _ _ _ (keyFor_token_replay _ _ _ _ _ Hit Hsub)).
Qed.

Lemma keyFor_replay (args : list value) (w w0 : world) c w' :
  keyFor args w = (c, w') → references w' ⊆ references w0 →
  keyFor args w0 = (c, w0).
Proof.
  unfold keyFor. intros Hrun Hsub.
  destruct (mapM keyFor_token args w) as [[tokens|e] w1] eqn:Hargs.
  - rewrite (bind_normal _ _ _ _ _ Hargs) in Hrun.
    unfold mret, M_ret in Hrun. injection Hrun as <- <-.
    by rewrite (bind_normal _ _ _ _ _ (mapM_keyFor_token_replay _ _ _ _ _ Hargs Hsub)).
  - rewrite (bind_throw _ _ _ _ _ Hargs) in Hrun. injection Hrun as <- <-.
    by rewrite (bind_throw _ _ _ _ _ (mapM_keyFor_token_replay _ _ _ _ _ Hargs Hsub)).
Qed.

(** The three outcomes of [retrieve] on the [Map] of a receiver. *)
Lemma receiver_retrieve_hit this key create w v :
  (method_cache w !!! this) !! key = Some v →
  retrieve (new_Map (receiver_slot this)) key create w = (Normal v, w).
Proof.
  intros E. unfold retrieve; simpl. unfold mbind, M_bind; simpl.
  rewrite E; simpl. by rewrite lookup_total_alt, E.
Qed.

Lemma receiver_retrieve_miss this key (create : M world value) w v w' :
  (method_cache w !!! this) !! key = None →
  create w = (Normal v, w') →
  retrieve (new_Map (receiver_slot this)) key create w
  = (Normal v,
     World (guuid w') (references w')
           (<[this := <[key := v]> (method_cache w' !!! this)]> (method_cache w'))
           (bound w') (accessor_cache w') (calls w')).
Proof.
  intros E Hf. unfold retrieve; simpl. unfold mbind, M_bind; simpl.
  rewrite E; simpl. rewrite Hf; simpl.
  by rewrite !lookup_total_insert_eq.
Qed.

Lemma receiver_retrieve_throw this key (create : M world value) w e w' :
  (method_cache w !!! this) !! key = None →
  create w = (Throw e, w') →
  retrieve (new_Map (receiver_slot this)) key create w = (Throw e, w').
Proof.
  intros E Hf. unfold retrieve; simpl. unfold mbind, M_bind; simpl.
  rewrite E; simpl. by rewrite Hf.
Qed.

End descorators_cache.

Section descorators_method.
Context `{Host}.
Import Descorators.

(** The first two statements of [memoizedMethod] make sure that [bound]
    and [cache] have an entry for the receiver; the rest of the world is
    left alone, and nothing changes when both entries exist. *)
Lemma memoizedMethod_prepare (w : world) (r : reference) :
  bound w !! r = None ∨ bound w !! r = Some (Ref r) →
  ∃ ws,
    (∀ method A,
       memoizedMethod method (Ref r) A w
       = retrieveByArguments (new_Map (receiver_slot r))
           (λ args, invoke (Call "method" (Ref r) args) (method (Ref r) args))
           A ws)
    ∧ guuid ws = guuid w ∧ references ws = references w ∧ calls ws = calls w
    ∧ method_cache ws !!! r = method_cache w !!! r
    ∧ bound ws !! r = Some (Ref r)
    ∧ (bound w !! r = Some (Ref r) → is_Some (method_cache w !! r) → ws = w).
Proof.
  intros Hbound.
  exists (World (guuid w) (references w)
            (match method_cache w !! r with
             | Some _ => method_cache w
             | None => <[r := ∅]> (method_cache w)
             end)
            (match bound w !! r with
             | Some _ => bound w
             | None => <[r := Ref r]> (bound w)
             end)
            (accessor_cache w) (calls w)).
  split_and!; try done.
  - intros method A. unfold memoizedMethod, retrieve; simpl.
    unfold mbind, M_bind; simpl.
    destruct Hbound as [Hb|Hb]; rewrite Hb; simpl;
      destruct (method_cache w !! r) as [m|] eqn:Hm; simpl;
      rewrite ?Hm, ?lookup_insert_eq; simpl;
      rewrite ?lookup_total_insert_eq, ?(lookup_total_alt (bound w)), ?Hb; simpl;
      by destruct w.
  - simpl. destruct (method_cache w !! r) as [m|] eqn:Hm; [done|].
    by rewrite lookup_total_insert_eq, lookup_total_alt, Hm.
  - simpl. destruct Hbound as [Hb|Hb]; rewrite Hb; [|done].
    by rewrite lookup_insert_eq.
  - intros Hb [m Hm]. rewrite Hb, Hm. by destruct w.
Qed.

(** The method decorator of descorators.js: the first call with a key that
    has no entry calls the method on the receiver with the arguments and
    returns its result; a second call with the same key returns that
    result without calling the method it wraps. *)
Lemma memoizedMethod_computes_once (w wk : world) (r : reference)
    (A A' : list value) (key : string) (v : value)
    (method' : value → list value → M world value) :
  bound w !! r = None ∨ bound w !! r = Some (Ref r) →
  keyFor A w = (Normal key, wk) →
  (method_cache w !!! r) !! key = None →
  ∃ w1,
    memoizedMethod (λ _ _, mret v) (Ref r) A w = (Normal v, w1)
    ∧ calls w1 = Call "method" (Ref r) A :: calls w
    ∧ keyFor A w1 = (Normal key, w1)
    ∧ ∀ w2,
        keyFor A' w1 = (Normal key, w2) →
        memoizedMethod method' (Ref r) A' w1 = (Normal v, w2)
        ∧ calls w2 = calls w1.
Proof.
  intros Hbound Hkey Hmiss.
  destruct (memoizedMethod_prepare w r Hbound)
    as (ws & Hrun & Hg & Hrefs & Hcalls & Hmc & Hb & _).
  rewrite Hrun. unfold retrieveByArguments.
  pose proof (keyFor_frame _ _ ws _ _ Hkey Hg Hrefs) as Hkeys.
  rewrite (bind_normal _ _ _ _ _ Hkeys).
  erewrite receiver_retrieve_miss; [|simpl; by rewrite Hmc|reflexivity].
  simpl. eexists.
  split_and!; [done|by rewrite Hcalls|by apply (keyFor_replay _ _ _ _ _ Hkeys)|].
  intros w2 Hkey'.
  match goal with |- context [memoizedMethod _ _ _ ?w] => set (w1 := w) in * end.
  destruct (memoizedMethod_prepare w1 r) as (ws1 & Hrun1 & _ & _ & _ & _ & _ & Hsame);
    [by right|].
  rewrite Hrun1, Hsame; [|done|by (subst w1; simpl; rewrite lookup_insert_eq)].
  unfold retrieveByArguments. rewrite (bind_normal _ _ _ _ _ Hkey').
  pose proof (keyFor_frame _ _ w1 _ _ Hkey' eq_refl eq_refl) as Hframe.
  rewrite Hkey' in Hframe. injection Hframe as ->.
  split; [|done].
  apply receiver_retrieve_hit. simpl.
  by rewrite lookup_total_insert_eq, lookup_insert_eq.
Qed.

End descorators_method.

Section descorators_method_failure.
Context `{Host}.
Import Descorators.

(** The method decorator of descorators.js, when the method throws: the
    error comes out as it is, the key still has no entry, and the world is
    ready for a call that computes again
    ([memoizedMethod_computes_once] applies to it). *)
Lemma memoizedMethod_does_not_cache_failure (w wk : world) (r : reference)
    (A : list value) (key : string) (e : exn) :
  bound w !! r = None ∨ bound w !! r = Some (Ref r) →
  keyFor A w = (Normal key, wk) →
  (method_cache w !!! r) !! key = None →
  ∃ w1,
    memoizedMethod (λ _ _, throw e) (Ref r) A w = (Throw e, w1)
    ∧ calls w1 = Call "method" (Ref r) A :: calls w
    ∧ (method_cache w1 !!! r) !! key = None
    ∧ bound w1 !! r = Some (Ref r)
    ∧ keyFor A w1 = (Normal key, w1).
Proof.
  intros Hbound Hkey Hmiss.
  destruct (memoizedMethod_prepare w r Hbound)
    as (ws & Hrun & Hg & Hrefs & Hcalls & Hmc & Hb & _).
  rewrite Hrun. unfold retrieveByArguments.
  pose proof (keyFor_frame _ _ ws _ _ Hkey Hg Hrefs) as Hkeys.
  rewrite (bind_normal _ _ _ _ _ Hkeys).
  erewrite receiver_retrieve_throw; [|simpl; by rewrite Hmc|reflexivity].
  eexists. split_and!; [done|simpl; by rewrite Hcalls|simpl; by rewrite Hmc|done|].
  by apply (keyFor_replay _ _ _ _ _ Hkeys).
Qed.

End descorators_method_failure.

(** ** The value advice *)

Section value_advice.
Context `{Host}.
Import Function.

(** The value advice of function.js never gives a callable: it returns
    [undefined] when [target.prototype] is an object or [null], and throws
    a TypeError otherwise; the world is left as it was. *)
Lemma memoize_value_spec (target : function_object) (w : world) :
  memoize_value target w
  = match prototype target with
    | Ref _ | Primitive PNull => (Normal (Plain (Primitive PUndefined)), w)
    | Primitive _ =>
        (Throw (TypeError "Object prototype may only be an Object or null"), w)
    end.
Proof.
  unfold memoize_value, Object_create.
  destruct (prototype target) as [[]|]; reflexivity.
Qed.

(** C4 (code defect): in function.js the value advice of [memoize]
    declares [memoized], which does delegate to [cache.fetch] with the
    receiver and the arguments, and then ends without returning it.
    Whatever the method and the world, decorating through [use] and then
    calling the decorated member throws a TypeError and leaves the world,
    call log included, as it was: the method is not called. When the
    method has a prototype object, what [use] stores in the descriptor is
    [undefined]. *)
Theorem memoize_value_returns_undefined
    (method : value → list value → M world value) (proto : value)
    (r : reference) (w : world) (this : value) (parameters : list value) :
  let target := {| code := method; prototype := proto |} in
  (∃ message,
     (m ← use_value memoize_value target; call_member m this parameters) w
     = (Throw (TypeError message), w))
  ∧ use_value memoize_value {| code := method; prototype := Ref r |} w
    = (Normal (Plain (Primitive PUndefined)), w)
  ∧ memoized target this parameters
    = Cache_fetch this parameters
        (Some (invoke (Call "target" this parameters) (method this parameters))).
Proof.
  intros target. split_and!; [| |done].
  - unfold use_value, mbind, M_bind. rewrite memoize_value_spec.
    destruct proto as [[]|]; by eexists.
  - unfold use_value. by rewrite memoize_value_spec.
Qed.

End value_advice.

(** ** Accessors *)

Section function_accessor.
Context `{Host}.
Import Function.

(** function.js: a read while [invalid] is set calls the getter, keeps its
    result in [cache] and clears [invalid]. *)
Lemma accessor_get_empty getter this w v w' :
  accessor_invalid w = true →
  getter this (log (Call "getter" this []) w) = (Normal v, w') →
  accessor_get getter this w
  = (Normal v,
     World (Cache_guuid w') (registry w') (scopes w') v false
           (next_address w') (calls w')).
Proof.
  intros Hinv Hget. unfold accessor_get, mbind, M_bind, read_invalid; simpl.
  rewrite Hinv. unfold invoke. by rewrite Hget.
Qed.

(** function.js: a read while [invalid] is clear returns [cache]. *)
Lemma accessor_get_populated getter this w :
  accessor_invalid w = false →
  accessor_get getter this w = (Normal (accessor_cache w), w).
Proof.
  intros Hinv. unfold accessor_get, mbind, M_bind, read_invalid; simpl.
  by rewrite Hinv.
Qed.

(** function.js: a write drops [cache], sets [invalid], and then calls
    the setter. *)
Lemma accessor_set_spec setter this v w :
  accessor_set (Some setter) this v w
  = setter this v
      (log (Call "setter" this [v])
         (World (Cache_guuid w) (registry w) (scopes w) (Primitive PUndefined)
                true (next_address w) (calls w))).
Proof. reflexivity. Qed.

(** C6 (code defect): in function.js the variables [cache] and [invalid]
    belong to the decorated accessor, not to an instance. From the initial
    world, with a getter that answers [f this]: instance [a] reads and
    gets [f a]; then instance [b] reads and gets [f a] as well, and the
    getter is not called for [b]; then a write on [b] makes the next read
    on [a] call the getter again. *)
Theorem accessor_cache_shared_between_instances
    (f : value → value) (a b v : value) :
  let getter := λ this : value, (mret (f this) : M world value) in
  let setter := λ _ _ : value, (mret (Primitive PUndefined) : M world value) in
  ∃ w1 w2 w3,
    accessor_get getter a initial = (Normal (f a), w1)
    ∧ calls w1 = [Call "getter" a []]
    ∧ accessor_get getter b w1 = (Normal (f a), w1)
    ∧ accessor_set (Some setter) b v w1 = (Normal (Primitive PUndefined), w2)
    ∧ accessor_get getter a w2 = (Normal (f a), w3)
    ∧ calls w3 = [Call "getter" a []; Call "setter" b [v]; Call "getter" a []].
Proof. intros getter setter. by eexists _, _, _. Qed.

End function_accessor.

Section descorators_accessor.
Context `{Host}.
Import Descorators.

(** descorators.js: a read without an entry for the receiver calls the
    getter and stores its result under the receiver. *)
Lemma memoizedGetter_empty getter (r : reference) w v w' :
  accessor_cache w !! r = None →
  getter (Ref r) (log (Call "getter" (Ref r) []) w) = (Normal v, w') →
  memoizedGetter getter (Ref r) w
  = (Normal v,
     World (guuid w') (references w') (method_cache w') (bound w')
           (<[r := v]> (accessor_cache w')) (calls w')).
Proof.
  intros E Hget. unfold memoizedGetter, retrieve; simpl.
  unfold mbind, M_bind; simpl. rewrite E; simpl.
  unfold invoke. rewrite Hget; simpl. by rewrite lookup_total_insert_eq.
Qed.

(** descorators.js: a read with an entry for the receiver returns it. *)
Lemma memoizedGetter_populated getter (r : reference) w v :
  accessor_cache w !! r = Some v →
  memoizedGetter getter (Ref r) w = (Normal v, w).
Proof.
  intros E. unfold memoizedGetter, retrieve; simpl.
  unfold mbind, M_bind; simpl. rewrite E; simpl.
  by rewrite lookup_total_alt, E.
Qed.

(** descorators.js: a write through a user-defined setter calls it and
    stores what it returns under the receiver. *)
Lemma memoizedSetter_with_setter setter (r : reference) v w result w' :
  setter (Ref r) v (log (Call "setter" (Ref r) [v]) w) = (Normal result, w') →
  memoizedSetter (Some setter) (Ref r) v w
  = (Normal result,
     World (guuid w') (references w') (method_cache w') (bound w')
           (<[r := result]> (accessor_cache w')) (calls w')).
Proof.
  intros Hset. unfold memoizedSetter; simpl. unfold mbind, M_bind; simpl.
  unfold invoke. rewrite Hset; simpl. by rewrite lookup_total_insert_eq.
Qed.

(** descorators.js: the default setter, given [undefined]. *)
Lemma memoizedSetter_default_undefined (r : reference) w :
  memoizedSetter None (Ref r) (Primitive PUndefined) w
  = (Normal (Primitive PUndefined),
     World (guuid w) (references w) (method_cache w) (bound w)
           (delete r (accessor_cache w)) (calls w)).
Proof.
  unfold memoizedSetter; simpl. unfold mbind, M_bind; simpl.
  by rewrite lookup_total_delete_eq.
Qed.

(** descorators.js: the default setter, given anything else. *)
Lemma memoizedSetter_default_other (this v : value) w :
  v ≠ Primitive PUndefined →
  memoizedSetter None this v w
  = (Throw (TypeError "Default memoized setter only accepts 'undefined'"), w).
Proof.
  intros Hv. unfold memoizedSetter.
  destruct v as [[]|]; try done.
Qed.

(** The accessor decorator of descorators.js keeps one entry per
    instance: two instances that read get each the value of their own
    getter call, and a write on one, through a setter that returns
    [result], leaves the entry of the other as it is. *)
Lemma memoizedGetter_scoped_to_instance (f : value → value)
    (a b : reference) (v result : value) (w : world) :
  a ≠ b →
  accessor_cache w !! a = None → accessor_cache w !! b = None →
  let getter := λ this : value, (mret (f this) : M world value) in
  let setter := λ _ _ : value, (mret result : M world value) in
  ∃ w1 w2 w3,
    memoizedGetter getter (Ref a) w = (Normal (f (Ref a)), w1)
    ∧ memoizedGetter getter (Ref b) w1 = (Normal (f (Ref b)), w2)
    ∧ accessor_cache w2 !! a = Some (f (Ref a))
    ∧ accessor_cache w2 !! b = Some (f (Ref b))
    ∧ memoizedSetter (Some setter) (Ref a) v w2 = (Normal result, w3)
    ∧ accessor_cache w3 !! b = Some (f (Ref b)).
Proof.
  intros Hab Ha Hb getter setter. eexists _, _, _. split_and!.
  - by apply memoizedGetter_empty.
  - apply memoizedGetter_empty; [|done]. simpl. by rewrite lookup_insert_ne.
  - simpl. rewrite lookup_insert_ne by done. by rewrite lookup_insert_eq.
  - simpl. by rewrite lookup_insert_eq.
  - by apply memoizedSetter_with_setter.
  - simpl. rewrite lookup_insert_ne by done. by rewrite lookup_insert_eq.
Qed.

End descorators_accessor.

Section accessor_claims.
Context `{Host}.

(** C7, as amended: an accessor entry is Empty or Populated (function.js:
    [invalid] set or clear; descorators.js: no entry or an entry for the
    receiver). A read in Empty calls the getter, stores its result and
    leaves the entry Populated; a read in Populated returns the stored
    value and changes nothing. In function.js every write, from either
    state, empties the entry and then calls the setter. In descorators.js
    a write through a user-defined setter calls it and leaves the entry
    Populated with what the setter returned, from either state; without a
    user-defined setter, writing [undefined] leaves the entry Empty, and
    writing anything else throws a TypeError and changes nothing. *)
Theorem accessor_entry_transitions
    (getter : value → M Function.world value)
    (setter : value → value → M Function.world value)
    (getter' : value → M Descorators.world value)
    (setter' : value → value → M Descorators.world value)
    (this v : value) (r : reference) :
  (∀ w x w',
     Function.accessor_invalid w = true →
     getter this (Function.log (Call "getter" this []) w) = (Normal x, w') →
     ∃ w1, Function.accessor_get getter this w = (Normal x, w1)
           ∧ Function.accessor_invalid w1 = false
           ∧ Function.accessor_cache w1 = x)
  ∧ (∀ w,
       Function.accessor_invalid w = false →
       Function.accessor_get getter this w = (Normal (Function.accessor_cache w), w))
  ∧ (∀ w,
       ∃ w0, Function.accessor_invalid w0 = true
             ∧ Function.accessor_cache w0 = Primitive PUndefined
             ∧ Function.calls w0 = Call "setter" this [v] :: Function.calls w
             ∧ Function.accessor_set (Some setter) this v w = setter this v w0)
  ∧ (∀ w x w',
       Descorators.accessor_cache w !! r = None →
       getter' (Ref r) (Descorators.log (Call "getter" (Ref r) []) w) = (Normal x, w') →
       ∃ w1, Descorators.memoizedGetter getter' (Ref r) w = (Normal x, w1)
             ∧ Descorators.accessor_cache w1 !! r = Some x)
  ∧ (∀ w x,
       Descorators.accessor_cache w !! r = Some x →
       Descorators.memoizedGetter getter' (Ref r) w = (Normal x, w))
  ∧ (∀ w result w',
       setter' (Ref r) v (Descorators.log (Call "setter" (Ref r) [v]) w)
       = (Normal result, w') →
       ∃ w1, Descorators.memoizedSetter (Some setter') (Ref r) v w = (Normal result, w1)
             ∧ Descorators.accessor_cache w1 !! r = Some result)
  ∧ (∀ w,
       ∃ w1, Descorators.memoizedSetter None (Ref r) (Primitive PUndefined) w
             = (Normal (Primitive PUndefined), w1)
             ∧ Descorators.accessor_cache w1 !! r = None)
  ∧ (∀ w,
       v ≠ Primitive PUndefined →
       Descorators.memoizedSetter None (Ref r) v w
       = (Throw (TypeError "Default memoized setter only accepts 'undefined'"), w)).
Proof.
  split_and!.
  - intros w x w' Hinv Hget. eexists. split; [by apply accessor_get_empty|done].
  - intros w. apply accessor_get_populated.
  - intros w. eexists. split_and!; [| | |apply accessor_set_spec]; done.
  - intros w x w' E Hget. eexists. split; [by apply memoizedGetter_empty|].
    simpl. by rewrite lookup_insert_eq.
  - intros w x. apply memoizedGetter_populated.
  - intros w result w' Hset. eexists.
    split; [by apply memoizedSetter_with_setter|].
    simpl. by rewrite lookup_insert_eq.
  - intros w. eexists. split; [apply memoizedSetter_default_undefined|].
    simpl. by rewrite lookup_delete_eq.
  - intros w. apply memoizedSetter_default_other.
Qed.

(** C10: the setter that descorators.js generates for an accessor without
    a setter. Given [undefined] it returns [undefined] and the world
    differs only in that the receiver has no entry in the accessor cache;
    given any other value it throws a TypeError and the world, cache entry
    included, is as before. *)
Theorem default_setter_accepts_only_undefined
    (w : Descorators.world) (r : reference) (v : value) :
  Descorators.memoizedSetter None (Ref r) (Primitive PUndefined) w
  = (Normal (Primitive PUndefined),
     Descorators.World (Descorators.guuid w) (Descorators.references w)
       (Descorators.method_cache w) (Descorators.bound w)
       (delete r (Descorators.accessor_cache w)) (Descorators.calls w))
  ∧ (v ≠ Primitive PUndefined →
     Descorators.memoizedSetter None (Ref r) v w
     = (Throw (TypeError "Default memoized setter only accepts 'undefined'"), w)).
Proof.
  split; [apply memoizedSetter_default_undefined|apply memoizedSetter_default_other].
Qed.

End accessor_claims.

Section accessor_runs.
#[local] Existing Instance integral_host.

(** Against C7 as stated, in descorators.js. An instance reads a getter
    that answers 1: its entry is Populated. Writing 5 through the default
    setter throws and leaves the entry Populated, with the same value.
    And from the initial world, where the entry is Empty, a write through
    a user-defined setter that returns [undefined] leaves the entry
    Populated, holding [undefined]. *)
Lemma write_can_leave_entry_populated :
  let this := AnObject 1 in
  let one := Primitive (PNumber 1%Z) in
  let five := Primitive (PNumber 5%Z) in
  let getter := λ _ : value, (mret one : M Descorators.world value) in
  let setter :=
    λ _ _ : value, (mret (Primitive PUndefined) : M Descorators.world value) in
  let populated := (Descorators.memoizedGetter getter (Ref this) Descorators.initial).2 in
  let written := (Descorators.memoizedSetter (Some setter) (Ref this) five
                    Descorators.initial).2 in
  Descorators.accessor_cache populated !! this = Some one
  ∧ Descorators.memoizedSetter None (Ref this) five populated
    = (Throw (TypeError "Default memoized setter only accepts 'undefined'"),
       populated)
  ∧ Descorators.accessor_cache Descorators.initial !! this = None
  ∧ Descorators.accessor_cache written !! this = Some (Primitive PUndefined).
Proof. by vm_compute. Qed.

Lemma accessor_entry_transitions_witness :
  let this := AnObject 1 in
  let one := Primitive (PNumber 1%Z) in
  let five := Primitive (PNumber 5%Z) in
  (∃ w1,
     Function.accessor_get (λ _, mret one) (Ref this) Function.initial
     = (Normal one, w1)
     ∧ Function.accessor_invalid w1 = false
     ∧ Function.accessor_cache w1 = one)
  ∧ (∃ w1,
       Descorators.memoizedGetter (λ _, mret one) (Ref this) Descorators.initial
       = (Normal one, w1)
       ∧ Descorators.accessor_cache w1 !! this = Some one)
  ∧ Descorators.memoizedSetter None (Ref this) five Descorators.initial
    = (Throw (TypeError "Default memoized setter only accepts 'undefined'"),
       Descorators.initial).
Proof.
  intros this one five.
  destruct (accessor_entry_transitions
              (λ _, mret one) (λ _ _, mret one) (λ _, mret one) (λ _ _, mret one)
              (Ref this) five this)
    as (Hread & _ & _ & Hread' & _ & _ & _ & Hother).
  split_and!.
  - apply (Hread Function.initial one
             (Function.log (Call "getter" (Ref this) []) Function.initial));
      reflexivity.
  - apply (Hread' Descorators.initial one
             (Descorators.log (Call "getter" (Ref this) []) Descorators.initial));
      reflexivity.
  - apply Hother. discriminate.
Defined.

Lemma default_setter_accepts_only_undefined_witness :
  let five := Primitive (PNumber 5%Z) in
  five ≠ Primitive PUndefined
  ∧ Descorators.memoizedSetter None (Ref (AnObject 1)) five Descorators.initial
    = (Throw (TypeError "Default memoized setter only accepts 'undefined'"),
       Descorators.initial).
Proof.
  intros five.
  assert (Hfive : five ≠ Primitive PUndefined) by discriminate.
  split; [exact Hfive|].
  exact (proj2 (default_setter_accepts_only_undefined
                  Descorators.initial (AnObject 1) five) Hfive).
Defined.

End accessor_runs.

(** ** Memoized classes *)

Section memoized_class.
Context `{Host}.
Import Function.

(** A [fetch] that returns leaves the returned value under the key of the
    parameters, in the scope of the context. *)
Lemma Cache_fetch_stores context parameters fallback w v w1 :
  Cache_fetch (Ref context) parameters fallback w = (Normal v, w1) →
  ∃ key,
    (keyFrom parameters w).1 = Normal key
    ∧ is_Some (scopes w1 !! context)
    ∧ (scopes w1 !!! context) !! key = Some v.
Proof.
  intros Hrun.
  destruct (keyFrom_pure parameters) as [[key|e] Hkey].
  - exists key. split; [by rewrite Hkey|].
    rewrite (Cache_fetch_spec _ _ key) in Hrun by (by rewrite Hkey).
    assert (Hscope : is_Some
              (scopes (DefaultMap_get Cache_store (Ref context) w).2 !! context)).
    { rewrite Cache_store_get_spec.
      destruct (scopes w !! context) eqn:E; simpl; [by rewrite E|].
      by rewrite lookup_insert_eq. }
    destruct (DefaultMap_get Cache_store (Ref context) w) as [? ws];
      cbn [snd] in *.
    destruct ((scopes ws !!! context) !! key) as [v'|] eqn:E.
    + rewrite (scope_fetch_hit _ _ _ _ _ E) in Hrun.
      injection Hrun as <- <-. done.
    + destruct fallback as [f|].
      * destruct (f ws) as [[v'|e] w'] eqn:Hf.
        -- rewrite (scope_fetch_miss _ _ _ _ _ _ E Hf) in Hrun.
           injection Hrun as <- <-. simpl.
           rewrite lookup_insert_eq, lookup_total_insert_eq, lookup_insert_eq.
           eauto.
        -- by rewrite (scope_fetch_throw _ _ _ _ _ _ E Hf) in Hrun.
      * unfold DefaultMap_fetch in Hrun; simpl in Hrun.
        unfold mbind, M_bind in Hrun; simpl in Hrun.
        by rewrite E in Hrun.
  - unfold Cache_fetch in Hrun.
    destruct (Cache_store_get_normal context w) as [m Hm].
    rewrite (bind_normal _ _ _ _ _ Hm) in Hrun.
    by rewrite (bind_throw _ _ _ _ _ (Hkey _)) in Hrun.
Qed.

(** A parameter list that holds a reference gets no key: the key builder
    of function.js throws, in every world and without changing it. Unless
    a symbol stands in the list, what it throws is the ReferenceError of
    the unbound [references]. *)
Lemma keyFrom_rejects_reference (parameters : list value) (r : reference) :
  Ref r ∈ parameters →
  ∃ e, (∀ w, keyFrom parameters w = (Throw e, w))
       ∧ ((∀ s, Primitive (PSymbol s) ∉ parameters) →
          e = ReferenceError "references is not defined").
Proof.
  intros Hin.
  assert (∃ e, (∀ w, mapM keyFrom_token parameters w = (Throw e, w))
               ∧ ((∀ s, Primitive (PSymbol s) ∉ parameters) →
                  e = ReferenceError "references is not defined"))
    as (e & He & Hsym).
  { induction parameters as [|it parameters IH]; [by apply elem_of_nil in Hin|].
    destruct it as [p|r'].
    - apply elem_of_cons in Hin as [?|Hin]; [done|].
      destruct (IH Hin) as (e & He & Hsym).
      assert ((∃ token, ∀ w, keyFrom_token (Primitive p) w = (Normal token, w))
              ∨ (∃ id, p = PSymbol id)) as [[token Hit]|[id ->]].
      { destruct p; first [by right; eauto | left; eexists; intros w; reflexivity]. }
      + exists e. split.
        * intros w. cbn [mapM]. rewrite (bind_normal _ _ _ _ _ (Hit w)).
          by rewrite (bind_throw _ _ _ _ _ (He _)).
        * intros Hno. apply Hsym. intros s Hs. apply (Hno s). by right.
      + eexists. split.
        * intros w. by cbn [mapM].
        * intros Hno. destruct (Hno id). by left.
    - exists (ReferenceError "references is not defined"). split; [|done].
      intros w. by cbn [mapM]. }
  exists e. split; [|done].
  intros w. unfold keyFrom. by rewrite (bind_throw _ _ _ _ _ (He _)).
Qed.

(** For a parameter list that does get a key, the memoized class of
    function.js shares its instances: when the key has no entry and
    [new target(...A)] gives [r], the first construction calls the
    constructor and returns [r], and the second returns the identical [r]
    and leaves the world, call log included, as it was. *)
Lemma memoized_class_constructs_once (w wn : world) (target r : reference)
    (new_target : list value → M world reference) (A : list value)
    (key : string) :
  (keyFrom A w).1 = Normal key →
  (scopes w !!! target) !! key = None →
  new_target A (log (Call "target" (Ref target) A)
                    (DefaultMap_get Cache_store (Ref target) w).2)
  = (Normal r, wn) →
  ∃ w1,
    MemoizedClass target new_target A w = (Normal (Ref r), w1)
    ∧ calls w1 = calls wn
    ∧ (scopes w1 !!! target) !! key = Some (Ref r)
    ∧ MemoizedClass target new_target A w1 = (Normal (Ref r), w1).
Proof.
  intros HA Hmiss Hnew. unfold MemoizedClass.
  match goal with
  | |- context [Cache_fetch _ _ (Some ?f)] => set (construct := f)
  end.
  pose proof (Cache_fetch_spec target A key (Some construct) w HA) as Hfirst.
  pose proof (Cache_store_get_entry target w key) as Hentry.
  destruct (DefaultMap_get Cache_store (Ref target) w) as [? ws]; cbn [snd] in *.
  rewrite Hmiss in Hentry.
  assert (Hf : construct ws = (Normal (Ref r), wn)).
  { unfold construct, invoke. by rewrite (bind_normal _ _ _ _ _ Hnew). }
  rewrite (scope_fetch_miss _ _ _ _ _ _ Hentry Hf) in Hfirst.
  match type of Hfirst with
  | _ = (_, ?w1) =>
      assert (Hsecond : Cache_fetch (Ref target) A (Some construct) w1
                        = (Normal (Ref r), w1));
      [|exists w1]
  end.
  { erewrite Cache_fetch_spec by (erewrite keyFrom_anywhere; done).
    rewrite Cache_store_get_spec; simpl. rewrite lookup_insert_eq; simpl.
    apply scope_fetch_hit; simpl.
    by rewrite lookup_total_insert_eq, lookup_insert_eq. }
  split_and!.
  - by rewrite (bind_normal _ _ _ _ _ Hfirst).
  - done.
  - simpl. by rewrite lookup_total_insert_eq, lookup_insert_eq.
  - by rewrite (bind_normal _ _ _ _ _ Hsecond).
Qed.

End memoized_class.

Section memoized_class_claim.
Context `{Host}.

(** C9 (code defect): a memoized class does not give an instance for
    every argument list.

    function.js: when the argument list [A] holds a reference (an object
    or a function), [new MemoizedClass(...A)] throws, the first time and
    every time after: the constructor of the class is not called, no
    object is made, and the entries of the class's scope stay as they
    were. Unless a symbol stands in [A], what is thrown is the
    ReferenceError of the identifier [references], which the key builder
    reads and nothing binds.

    descorators.js: decorating a class throws a TypeError, whatever the
    class, and changes nothing: [proxyProperties] calls
    [getOwnPropertyNames], which the file takes from [Object.prototype],
    where it is [undefined]. The constructor of its [MemoizedClass]
    throws a ReferenceError for every argument list, since it reads
    [this] without having called [super]. *)
Theorem memoized_class_gives_no_instance :
  (∀ (w : Function.world) (target r : reference)
     (new_target : list value → M Function.world reference) (A : list value),
     Ref r ∈ A →
     ∃ e w1,
       Function.MemoizedClass target new_target A w = (Throw e, w1)
       ∧ Function.MemoizedClass target new_target A w1 = (Throw e, w1)
       ∧ Function.calls w1 = Function.calls w
       ∧ Function.next_address w1 = Function.next_address w
       ∧ Function.scopes w1 !!! target = Function.scopes w !!! target
       ∧ ((∀ s, Primitive (PSymbol s) ∉ A) →
          e = ReferenceError "references is not defined"))
  ∧ (∀ (w : Descorators.world) (target : Descorators.heritage)
       (MemoizedClass : reference) (proxy : string → M Descorators.world unit),
       ∃ message,
         Descorators.memoize_class target MemoizedClass proxy w
         = (Throw (TypeError message), w))
  ∧ (∀ (w : Descorators.world) store instances
       (new_target : list value → M Descorators.world reference)
       (proxy : string → M Descorators.world unit) (arguments : list value),
       ∃ message,
         Descorators.MemoizedClass store instances new_target proxy arguments w
         = (Throw (ReferenceError message), w)).
Proof.
  split_and!.
  - intros w target r new_target A Hin.
    destruct (keyFrom_rejects_reference A r Hin) as (e & He & Hsym).
    exists e, (Function.DefaultMap_get Function.Cache_store (Ref target) w).2.
    assert (Hthrow : ∀ w0,
              Function.MemoizedClass target new_target A w0
              = (Throw e, (Function.DefaultMap_get Function.Cache_store
                             (Ref target) w0).2)).
    { intros w0. unfold Function.MemoizedClass, Function.Cache_fetch.
      destruct (Cache_store_get_normal target w0) as [m Hm].
      set (ws := (Function.DefaultMap_get Function.Cache_store (Ref target) w0).2)
        in *.
      apply bind_throw.
      rewrite (bind_normal _ _ _ _ _ Hm).
      by rewrite (bind_throw _ _ _ _ _ (He ws)). }
    split_and!.
    + apply Hthrow.
    + rewrite Hthrow. f_equal.
      rewrite !Cache_store_get_spec.
      destruct (Function.scopes w !! target) as [m|] eqn:E; simpl.
      * by rewrite E.
      * by rewrite lookup_insert_eq.
    + apply Cache_store_get_calls.
    + rewrite Cache_store_get_spec.
      by destruct (Function.scopes w !! target).
    + rewrite Cache_store_get_spec.
      destruct (Function.scopes w !! target) as [m|] eqn:E; simpl; [done|].
      by rewrite lookup_total_insert_eq, lookup_total_alt, E.
    + done.
  - intros w target MemoizedClass proxy.
    unfold Descorators.memoize_class, Descorators.class_extends.
    destruct target as [[] [[]|]]; simpl; eauto.
  - intros. by eexists.
Qed.

End memoized_class_claim.

Section memoized_class_runs.
#[local] Existing Instance integral_host.

(** function.js, [new Point(1, o)] for an object [o], from the initial
    world: a ReferenceError, and no object has been made. *)
Lemma memoized_class_gives_no_instance_witness :
  let Point := AFunction 1 in
  let o := AnObject 7 in
  let A := [Primitive (PNumber 1%Z); Ref o] in
  Ref o ∈ A
  ∧ ∃ w1,
      Function.MemoizedClass Point Function.allocate A Function.initial
      = (Throw (ReferenceError "references is not defined"), w1)
      ∧ Function.MemoizedClass Point Function.allocate A w1
        = (Throw (ReferenceError "references is not defined"), w1)
      ∧ Function.calls w1 = []
      ∧ Function.next_address w1 = 1%positive.
Proof.
  intros Point o A.
  assert (Hin : Ref o ∈ A) by (right; left).
  assert (Hno : ∀ s, Primitive (PSymbol s) ∉ A).
  { intros s Hs. apply elem_of_cons in Hs as [?|Hs]; [done|].
    apply elem_of_cons in Hs as [?|Hs]; [done|]. by apply elem_of_nil in Hs. }
  split; [exact Hin|].
  destruct (proj1 memoized_class_gives_no_instance
              Function.initial Point o Function.allocate A Hin)
    as (e & w1 & Hfirst & Hsecond & Hcalls & Hnext & _ & He).
  rewrite (He Hno) in Hfirst, Hsecond.
  exists w1. by split_and!.
Defined.

(** function.js, [new Point(3, "x")] twice from the initial world: the
    constructor runs once, and both constructions give the object at
    address 1. *)
Example memoized_class_of_primitives :
  let Point := AFunction 1 in
  let A := [Primitive (PNumber 3%Z); Primitive (PString "x")] in
  let w1 := (Function.MemoizedClass Point Function.allocate A Function.initial).2 in
  Function.MemoizedClass Point Function.allocate A Function.initial
  = (Normal (Ref (AnObject 1)), w1)
  ∧ Function.MemoizedClass Point Function.allocate A w1
    = (Normal (Ref (AnObject 1)), w1)
  ∧ Function.calls w1 = [Call "target" (Ref Point) A]
  ∧ Function.next_address w1 = 2%positive.
Proof. by vm_compute. Qed.

End memoized_class_runs.

(** ** Runs *)

Section runs.
#[local] Existing Instance integral_host.

(** descorators.js: two objects get the tokens [<1>] and [<2>], and the
    first object gets [<1>] again. *)
Example keyFor_tokens_of_objects :
  let a := Ref (AnObject 10) in
  let b := Ref (AnObject 20) in
  (a_then_b ← Descorators.keyFor [a; b];
   a_again ← Descorators.keyFor [a];
   mret (a_then_b, a_again)) Descorators.initial
  = (Normal ("<1>,<2>", "<1>"),
     Descorators.World 3 {[AnObject 10 := 1%N; AnObject 20 := 2%N]} ∅ ∅ ∅ []).
Proof. by vm_compute. Qed.

(** The order of the arguments shows in the key, and absent values and
    booleans are spelled out. *)
Example keyFor_tokens_of_primitives :
  (Descorators.keyFor
     [Primitive (PNumber 1%Z); Primitive (PNumber 2%Z)] Descorators.initial).1
  = Normal "1,2"
  ∧ (Descorators.keyFor
       [Primitive (PNumber 2%Z); Primitive (PNumber 1%Z)] Descorators.initial).1
    = Normal "2,1"
  ∧ (Descorators.keyFor
       [Primitive PNull; Primitive PUndefined; Primitive (PBoolean true)]
       Descorators.initial).1
    = Normal "null,undefined,true"
  ∧ (Function.keyFrom
       [Primitive PNull; Primitive PUndefined; Primitive (PBoolean true)]
       Function.initial).1
    = Normal "null,undefined,true".
Proof. by vm_compute. Qed.

(** descorators.js: a memoized method called twice on the same receiver
    with the same object as argument calls the method once. *)
Example memoizedMethod_twice :
  let this := Ref (AnObject 1) in
  let argument := Ref (AnObject 2) in
  let method := λ (_ : value) (_ : list value),
    (mret (Primitive (PNumber 42%Z)) : M Descorators.world value) in
  let run :=
    first ← Descorators.memoizedMethod method this [argument];
    second ← Descorators.memoizedMethod method this [argument];
    mret (first, second) in
  (run Descorators.initial).1
  = Normal (Primitive (PNumber 42%Z), Primitive (PNumber 42%Z))
  ∧ Descorators.calls (run Descorators.initial).2 = [Call "method" this [argument]].
Proof. by vm_compute. Qed.

(** function.js: [fetch] with an object among the parameters stops with a
    ReferenceError before the fallback is called. *)
Example Cache_fetch_with_object_parameter :
  let fallback :=
    Function.invoke (Call "compute" (Primitive PUndefined) [])
      (mret (Primitive (PNumber 42%Z))) in
  let run :=
    Function.Cache_fetch (Ref (AnObject 1)) [Ref (AnObject 2)] (Some fallback) in
  (run Function.initial).1 = Throw (ReferenceError "references is not defined")
  ∧ Function.calls (run Function.initial).2 = [].
Proof. by vm_compute. Qed.

(** function.js: two instances whose getters answer 1 and 2; the second
    instance reads 1. *)
Example accessor_second_instance_reads_first :
  let a := Ref (AnObject 1) in
  let b := Ref (AnObject 2) in
  let getter := λ this : value,
    (mret (match this with
           | Ref (AnObject 1) => Primitive (PNumber 1%Z)
           | _ => Primitive (PNumber 2%Z)
           end) : M Function.world value) in
  let run :=
    x ← Function.accessor_get getter a;
    y ← Function.accessor_get getter b;
    mret (x, y) in
  (run Function.initial).1 = Normal (Primitive (PNumber 1%Z), Primitive (PNumber 1%Z))
  ∧ (getter b Function.initial).1 = Normal (Primitive (PNumber 2%Z)).
Proof. by vm_compute. Qed.

End runs.

(** * Further properties *)

(** ** function.js: edges of the cache *)

Section function_cache_edges.
Context `{Host}.
Import Function.

(** A receiver that is no object: [fetch], and so the function
    [memoized], throw a TypeError before the key is built; the fallback
    and the target are not called and the world is left as it was. *)
Theorem fetch_rejects_primitive_receiver (p : primitive)
    (parameters : list value) (fallback : option (M world value))
    (target : function_object) (w : world) :
  (∀ id, p ≠ PSymbol id) →
  Cache_fetch (Primitive p) parameters fallback w
  = (Throw (TypeError "Invalid value used as weak map key"), w)
  ∧ memoized target (Primitive p) parameters w
    = (Throw (TypeError "Invalid value used as weak map key"), w).
Proof. intros _. by split. Qed.

(** [fetch] without a fallback: a key with an entry is served as usual; a
    key without one gives a TypeError, and no entry is made for it. *)
Theorem fetch_without_fallback (w : world) (context : reference)
    (A : list value) (key : string) :
  (keyFrom A w).1 = Normal key →
  match (scopes w !!! context) !! key with
  | Some v => Cache_fetch (Ref context) A None w = (Normal v, w)
  | None =>
      ∃ w1,
        Cache_fetch (Ref context) A None w
        = (Throw (TypeError "fallback is not a function"), w1)
        ∧ (scopes w1 !!! context) !! key = None
        ∧ calls w1 = calls w
  end.
Proof.
  intros HA. rewrite (Cache_fetch_spec _ _ _ _ _ HA).
  destruct ((scopes w !!! context) !! key) as [v|] eqn:E.
  - rewrite Cache_store_get_spec.
    destruct (scopes w !! context) as [m|] eqn:Hm; simpl.
    + by apply scope_fetch_hit.
    + by rewrite lookup_total_alt, Hm in E.
  - pose proof (Cache_store_get_entry context w key) as Hentry.
    pose proof (Cache_store_get_calls context w) as Hcalls.
    destruct (DefaultMap_get Cache_store (Ref context) w) as [? ws];
      cbn [snd] in *.
    rewrite E in Hentry. exists ws. split_and!; [|done|done].
    unfold DefaultMap_fetch; simpl. unfold mbind, M_bind; simpl.
    by rewrite Hentry.
Qed.

(** A [fetch] for one receiver and key touches no other entry: every
    other pair of a receiver and a key has after the call the entry it
    had before, whether the fallback returns or throws. *)
Theorem fetch_leaves_other_entries (w w1 : world) (context other : reference)
    (A : list value) (key key' : string) (c : call)
    (outcome result : completion value) :
  (keyFrom A w).1 = Normal key →
  (other, key') ≠ (context, key) →
  Cache_fetch (Ref context) A (Some (invoke c (lift outcome))) w = (result, w1) →
  (scopes w1 !!! other) !! key' = (scopes w !!! other) !! key'.
Proof.
  intros HA Hne. rewrite (Cache_fetch_spec _ _ _ _ _ HA).
  assert (Hws : (scopes (DefaultMap_get Cache_store (Ref context) w).2 !!! other)
                !! key' = (scopes w !!! other) !! key').
  { rewrite Cache_store_get_spec.
    destruct (scopes w !! context) as [m|] eqn:Hm; simpl; [done|].
    destruct (decide (other = context)) as [->|Ho].
    - by rewrite lookup_total_insert_eq, lookup_total_alt, Hm.
    - by rewrite lookup_total_insert_ne. }
  destruct (DefaultMap_get Cache_store (Ref context) w) as [? ws]; cbn [snd] in *.
  destruct ((scopes ws !!! context) !! key) as [v|] eqn:E.
  - rewrite (scope_fetch_hit _ _ _ _ _ E). by intros [= <- <-].
  - destruct outcome as [v|e].
    + erewrite scope_fetch_miss; [|done|reflexivity].
      intros [= <- <-]. simpl. rewrite <- Hws.
      destruct (decide (other = context)) as [->|Ho].
      * rewrite lookup_total_insert_eq, lookup_insert_ne; [done|congruence].
      * by rewrite lookup_total_insert_ne.
    + erewrite scope_fetch_throw; [|done|reflexivity].
      by intros [= <- <-].
Qed.

End function_cache_edges.

(** ** function.js: edges of the accessor advice *)

Section function_accessor_edges.
Context `{Host}.
Import Function.

(** A getter that throws is not remembered: the read throws the same
    error and the entry stays invalid, so the next read calls the getter
    it is given. *)
Theorem accessor_get_does_not_cache_failure (w : world) (this x : value)
    (e : exn) :
  accessor_invalid w = true →
  ∃ w1 w2,
    accessor_get (λ _, throw e) this w = (Throw e, w1)
    ∧ accessor_invalid w1 = true
    ∧ accessor_get (λ _, mret x) this w1 = (Normal x, w2)
    ∧ calls w2 = [Call "getter" this []; Call "getter" this []] ++ calls w.
Proof.
  intros Hinv. eexists _, _. split_and!.
  - unfold accessor_get, mbind, M_bind, read_invalid; simpl.
    by rewrite Hinv.
  - done.
  - by apply accessor_get_empty.
  - done.
Qed.

(** An accessor without a setter: a write throws a TypeError, and still
    drops what was cached, so the next read calls the getter again. *)
Theorem accessor_set_without_setter (w : world) (this v x : value) :
  ∃ w1 w2,
    accessor_set None this v w
    = (Throw (TypeError "Cannot read properties of undefined"), w1)
    ∧ accessor_invalid w1 = true
    ∧ calls w1 = calls w
    ∧ accessor_get (λ _, mret x) this w1 = (Normal x, w2)
    ∧ calls w2 = Call "getter" this [] :: calls w.
Proof. by eexists _, _. Qed.

End function_accessor_edges.

(** ** descorators.js: keys *)

Section descorators_keys.
Context `{Host}.
Import Descorators.

(** Putting a text between angle brackets loses nothing. *)
Lemma bracket_inj (x y : string) :
  "<" +:+ x +:+ ">" = "<" +:+ y +:+ ">" → x = y.
Proof.
  simpl. intros [= E]. revert y E.
  induction x as [|a x IH]; intros [|b y]; simpl; intros E; try done.
  - destruct y; discriminate.
  - destruct x; discriminate.
  - injection E as -> E. by rewrite (IH _ E).
Qed.

Lemma keyFor_single_reference (r : reference) (w : world) :
  keyFor [Ref r] w = keyFor_token (Ref r) w.
Proof.
  rewrite keyFor_token_reference.
  unfold keyFor, keyFor_token, retrieve; simpl.
  unfold mbind, M_bind; simpl.
  destruct (references w !! r) as [id|] eqn:E; simpl.
  - by rewrite lookup_total_alt, E.
  - by rewrite lookup_total_insert_eq.
Qed.

(** The token of a reference tells its id in the registry the run
    leaves, which holds what the registry held. *)
Lemma keyFor_token_reference_id (r : reference) (w w' : world) (token : string) :
  registry_ok (guuid w) (references w) →
  keyFor_token (Ref r) w = (Normal token, w') →
  ∃ id, token = "<" +:+ pretty id +:+ ">"
        ∧ references w' !! r = Some id
        ∧ references w ⊆ references w'
        ∧ registry_ok (guuid w') (references w').
Proof.
  intros Hok. rewrite keyFor_token_reference.
  destruct (references w !! r) as [id|] eqn:E; intros [= <- <-].
  - by exists id.
  - exists (guuid w). simpl. split_and!; [done| | |].
    + by rewrite lookup_insert_eq.
    + by apply insert_subseteq.
    + by apply registry_ok_register.
Qed.

(** Two different references never get the same token, and so never the
    same one-argument key, in a world whose registry is well formed. *)
Theorem keyFor_separates_references (w w1 w2 : world) (a b : reference)
    (ka kb : string) :
  registry_ok (guuid w) (references w) →
  a ≠ b →
  keyFor [Ref a] w = (Normal ka, w1) →
  keyFor [Ref b] w1 = (Normal kb, w2) →
  ka ≠ kb.
Proof.
  intros Hok Hab. rewrite !keyFor_single_reference. intros Ha Hb.
  destruct (keyFor_token_reference_id _ _ _ _ Hok Ha)
    as (ia & -> & Eia & _ & Hok1).
  destruct (keyFor_token_reference_id _ _ _ _ Hok1 Hb)
    as (ib & -> & Eib & Hsub & (_ & _ & Hinj)).
  intros Heq. apply bracket_inj, (inj pretty) in Heq. subst ib.
  apply Hab, (Hinj a b ia); [|done].
  by apply (lookup_weaken _ _ _ _ Eia Hsub).
Qed.

(** The key of an argument list is stable: built again right after, it is
    the same key and the world does not change; and building a key only
    ever adds to the registry, leaving the caches and the call log as
    they were. *)
Theorem keyFor_is_stable (args : list value) (w w1 : world)
    (c : completion string) :
  keyFor args w = (c, w1) →
  keyFor args w1 = (c, w1)
  ∧ references w ⊆ references w1
  ∧ method_cache w1 = method_cache w
  ∧ bound w1 = bound w
  ∧ accessor_cache w1 = accessor_cache w
  ∧ calls w1 = calls w.
Proof.
  intros Hrun. split; [by apply (keyFor_replay _ _ _ _ _ Hrun)|].
  pose proof (keyFor_frame _ _ w _ _ Hrun eq_refl eq_refl) as Hframe.
  rewrite Hrun in Hframe. injection Hframe as Hw1.
  split.
  - unfold keyFor in Hrun.
    destruct (mapM keyFor_token args w) as [[tokens|e] w'] eqn:Hargs.
    + rewrite (bind_normal _ _ _ _ _ Hargs) in Hrun.
      unfold mret, M_ret in Hrun. injection Hrun as _ <-.
      by eapply mapM_keyFor_token_grows.
    + rewrite (bind_throw _ _ _ _ _ Hargs) in Hrun. injection Hrun as _ <-.
      by eapply mapM_keyFor_token_grows.
  - by rewrite Hw1.
Qed.

End descorators_keys.

(** ** descorators.js: edges of the method and accessor decorators *)

Section descorators_edges.
Context `{Host}.
Import Descorators.

(** The world after the first two statements of [memoizedMethod]. *)
Lemma memoizedMethod_prepared (w : world) (r : reference) :
  bound w !! r = None ∨ bound w !! r = Some (Ref r) →
  ∀ method A,
    memoizedMethod method (Ref r) A w
    = retrieveByArguments (new_Map (receiver_slot r))
        (λ args, invoke (Call "method" (Ref r) args) (method (Ref r) args))
        A
        (World (guuid w) (references w)
           (match method_cache w !! r with
            | Some _ => method_cache w
            | None => <[r := ∅]> (method_cache w)
            end)
           (match bound w !! r with
            | Some _ => bound w
            | None => <[r := Ref r]> (bound w)
            end)
           (accessor_cache w) (calls w)).
Proof.
  intros Hbound method A. unfold memoizedMethod, retrieve; simpl.
  unfold mbind, M_bind; simpl.
  destruct Hbound as [Hb|Hb]; rewrite Hb; simpl;
    destruct (method_cache w !! r) as [m|] eqn:Hm; simpl;
    rewrite ?Hm, ?lookup_insert_eq; simpl;
    rewrite ?lookup_total_insert_eq, ?(lookup_total_alt (bound w)), ?Hb; simpl;
    by destruct w.
Qed.

(** The method cache is kept per receiver: a call on one receiver stores
    its result under that receiver and leaves what is cached for every
    other receiver as it was. *)
Theorem memoizedMethod_receivers_are_separate (w wk : world)
    (a b : reference) (A : list value) (key : string) (v : value) :
  a ≠ b →
  bound w !! a = None ∨ bound w !! a = Some (Ref a) →
  keyFor A w = (Normal key, wk) →
  (method_cache w !!! a) !! key = None →
  ∃ w1,
    memoizedMethod (λ _ _, mret v) (Ref a) A w = (Normal v, w1)
    ∧ (method_cache w1 !!! a) !! key = Some v
    ∧ method_cache w1 !!! b = method_cache w !!! b
    ∧ bound w1 !! b = bound w !! b.
Proof.
  intros Hab Hbound Hkey Hmiss.
  rewrite (memoizedMethod_prepared w a Hbound).
  match goal with |- context [retrieveByArguments _ _ _ ?w0] => set (ws := w0) end.
  assert (Hmc : ∀ r, method_cache ws !!! r = method_cache w !!! r).
  { intros r. subst ws; simpl.
    destruct (method_cache w !! a) as [m|] eqn:Hm; [done|].
    destruct (decide (r = a)) as [->|Hr].
    - by rewrite lookup_total_insert_eq, lookup_total_alt, Hm.
    - by rewrite lookup_total_insert_ne. }
  assert (Hb : bound ws !! b = bound w !! b).
  { subst ws; simpl. destruct (bound w !! a); [done|].
    by rewrite lookup_insert_ne. }
  unfold retrieveByArguments.
  pose proof (keyFor_frame _ _ ws _ _ Hkey eq_refl eq_refl) as Hkeys.
  rewrite (bind_normal _ _ _ _ _ Hkeys).
  erewrite receiver_retrieve_miss; [|simpl; by rewrite Hmc|reflexivity].
  eexists. split_and!; [done| | |done].
  - simpl. by rewrite lookup_total_insert_eq, lookup_insert_eq.
  - simpl. rewrite lookup_total_insert_ne by done. apply Hmc.
Qed.

(** A getter that throws is not remembered: the read throws the same
    error, the receiver still has no entry, and the next read calls the
    getter it is given. *)
Theorem memoizedGetter_does_not_cache_failure (w : world) (r : reference)
    (e : exn) (x : value) :
  accessor_cache w !! r = None →
  ∃ w1 w2,
    memoizedGetter (λ _, throw e) (Ref r) w = (Throw e, w1)
    ∧ accessor_cache w1 !! r = None
    ∧ memoizedGetter (λ _, mret x) (Ref r) w1 = (Normal x, w2)
    ∧ calls w2 = [Call "getter" (Ref r) []; Call "getter" (Ref r) []] ++ calls w.
Proof.
  intros E. eexists _, _. split_and!.
  - unfold memoizedGetter, retrieve; simpl. unfold mbind, M_bind; simpl.
    by rewrite E.
  - done.
  - by apply memoizedGetter_empty.
  - done.
Qed.

(** A user-defined setter that throws: the write throws the same error
    and the accessor cache is as before, entry or no entry. *)
Theorem memoizedSetter_failure_keeps_entry (w : world) (this v : value)
    (e : exn) :
  ∃ w1,
    memoizedSetter (Some (λ _ _, throw e)) this v w = (Throw e, w1)
    ∧ accessor_cache w1 = accessor_cache w
    ∧ calls w1 = Call "setter" this [v] :: calls w.
Proof. by eexists. Qed.

(** What a read gives after a write through a user-defined setter is what
    the setter returned, not the value written and not a fresh result of
    the getter: the getter is not called. *)
Theorem read_after_write_gives_setter_result (w : world) (r : reference)
    (v result : value) (getter : value → M world value) :
  ∃ w1,
    memoizedSetter (Some (λ _ _, mret result)) (Ref r) v w = (Normal result, w1)
    ∧ memoizedGetter getter (Ref r) w1 = (Normal result, w1)
    ∧ calls w1 = Call "setter" (Ref r) [v] :: calls w.
Proof.
  eexists. split_and!.
  - by apply memoizedSetter_with_setter.
  - apply memoizedGetter_populated. simpl. by rewrite lookup_insert_eq.
  - done.
Qed.

(** A receiver that is no object. The memoized method throws a TypeError
    without calling the method. The memoized getter calls the getter and
    then throws a TypeError, at every read: nothing can be stored. *)
Theorem decorators_reject_primitive_receiver (w : world) (p : primitive)
    (method : value → list value → M world value) (A : list value)
    (x : value) :
  (∀ id, p ≠ PSymbol id) →
  memoizedMethod method (Primitive p) A w
  = (Throw (TypeError "Invalid value used as weak map key"), w)
  ∧ memoizedGetter (λ _, mret x) (Primitive p) w
    = (Throw (TypeError "Invalid value used as weak map key"),
       log (Call "getter" (Primitive p) []) w).
Proof. intros _. by split. Qed.

End descorators_edges.

(** ** function.js: once *)

Section once_properties.
Context `{Host}.
Import Once.

(** After [done] is set, the wrapper answers [result] and calls nothing. *)
Lemma wrapper_done (k : nat) target this arguments (w : world) (r : value) :
  closures w !! k = Some (true, r) →
  wrapper k target this arguments w = (Normal r, w).
Proof.
  intros E. unfold wrapper, mbind, M_bind, read_done, read_result; simpl.
  rewrite E; simpl. by rewrite E.
Qed.

Lemma alter_as_insert {A} (f : A → A) (l : list A) (k : nat) (x : A) :
  l !! k = Some x → alter f k l = <[k := f x]> l.
Proof.
  intros E. apply list_eq. intros i.
  assert (Hk : k < length l) by (by eapply lookup_lt_Some).
  destruct (decide (i = k)) as [->|Hi].
  - by rewrite list_lookup_alter_eq, E, list_lookup_insert_eq.
  - by rewrite list_lookup_alter_ne, list_lookup_insert_ne.
Qed.

(** The wrapper's first call, with a target that has no effect of its
    own and ends as [body this arguments]. *)
Lemma wrapper_first (k : nat) (body : value → list value → completion value)
    this arguments (w : world) (r : value) :
  closures w !! k = Some (false, r) →
  wrapper k (λ this arguments, lift (body this arguments)) this arguments w
  = match body this arguments with
    | Normal v =>
        (Normal v,
         World (<[k := (true, v)]> (closures w))
               (Call "target" this arguments :: calls w))
    | Throw e =>
        (Throw e,
         World (<[k := (true, r)]> (closures w))
               (Call "target" this arguments :: calls w))
    end.
Proof.
  intros E. unfold wrapper, mbind, M_bind, read_done, read_result; simpl.
  rewrite E; simpl.
  assert (Hk : k < length (closures w)) by (by eapply lookup_lt_Some).
  rewrite (alter_as_insert _ _ _ _ E); simpl.
  unfold lift. destruct (body this arguments) as [v|e]; simpl; [|done].
  rewrite (alter_as_insert _ _ k (true, r))
    by (by apply list_lookup_insert_eq).
  simpl. rewrite list_insert_insert_eq.
  by rewrite list_lookup_insert_eq.
Qed.

(** What [once] answers for a function, and the variables it makes. *)
Lemma once_spec (f : Use.function) (w : world) :
  once (Use.Callable f) w
  = (Normal (Use.Callable
               {| Use.code := wrapper (length (closures w)) (Use.code f);
                  Use.Function_length := 0 |}),
     World (closures w ++ [(false, Primitive PUndefined)]) (calls w)).
Proof. reflexivity. Qed.

(** A function decorated with [once] runs at the first call of the
    wrapper only. Every later call, with any receiver and any arguments,
    returns what the first call returned and changes nothing. *)
Theorem once_keeps_first_result (w : world)
    (body : value → list value → completion value) (n : nat)
    (this : value) (arguments : list value) (v : value) :
  body this arguments = Normal v →
  let target := {| Use.code := λ this arguments, lift (body this arguments);
                   Use.Function_length := n |} in
  ∃ k w0 w1,
    once (Use.Callable target) w
    = (Normal (Use.Callable {| Use.code := wrapper k (Use.code target);
                               Use.Function_length := 0 |}), w0)
    ∧ wrapper k (Use.code target) this arguments w0 = (Normal v, w1)
    ∧ calls w1 = Call "target" this arguments :: calls w
    ∧ ∀ this' arguments',
        wrapper k (Use.code target) this' arguments' w1 = (Normal v, w1).
Proof.
  intros Hbody target. eexists _, _, _. split_and!.
  - apply once_spec.
  - simpl. rewrite (wrapper_first _ _ _ _ _ (Primitive PUndefined)), Hbody;
      [done|]. simpl. by apply list_lookup_middle.
  - done.
  - intros this' arguments'. apply wrapper_done. simpl.
    rewrite list_lookup_insert_eq; [done|]. rewrite length_app; simpl. lia.
Qed.

(** When the first call throws, the error comes out of that call only:
    [done] was set before the target ran, so every later call returns
    [undefined] and the target is never tried again. *)
Theorem once_after_failure (w : world)
    (body : value → list value → completion value) (n : nat)
    (this : value) (arguments : list value) (e : exn) :
  body this arguments = Throw e →
  let target := {| Use.code := λ this arguments, lift (body this arguments);
                   Use.Function_length := n |} in
  ∃ k w0 w1,
    once (Use.Callable target) w
    = (Normal (Use.Callable {| Use.code := wrapper k (Use.code target);
                               Use.Function_length := 0 |}), w0)
    ∧ wrapper k (Use.code target) this arguments w0 = (Throw e, w1)
    ∧ calls w1 = Call "target" this arguments :: calls w
    ∧ ∀ this' arguments',
        wrapper k (Use.code target) this' arguments' w1
        = (Normal (Primitive PUndefined), w1).
Proof.
  intros Hbody target. eexists _, _, _. split_and!.
  - apply once_spec.
  - simpl. rewrite (wrapper_first _ _ _ _ _ (Primitive PUndefined)), Hbody;
      [done|]. simpl. by apply list_lookup_middle.
  - done.
  - intros this' arguments'. apply wrapper_done. simpl.
    rewrite list_lookup_insert_eq; [done|]. rewrite length_app; simpl. lia.
Qed.

End once_properties.

(** ** use.js *)

Section use_properties.
Context `{Host} {W : Type}.
Import Use.

(** With a plain advice, [use] gives an accessor the advised getter as
    its getter and the advice of that advised getter as its setter: the
    setter the descriptor had is not passed to the advice and is gone. *)
Theorem use_advice_drops_setter (a : advice (W := W)) (target : item)
    (name : value) (g s : option item) (cf en wr : option value) (w : W) :
  use (of_advice a) target name (Some (Descriptor None g s cf en wr)) w
  = (g' ← a (read g);
     s' ← a g';
     mret (undefined, Some (Descriptor None (Some g') (Some s') cf en wr))) w.
Proof.
  unfold use. replace (is_function target && is_nullish name && absent _)
    with false by (by rewrite andb_false_r).
  simpl. unfold mbind, M_bind.
  destruct (a (read g) w) as [[g'|e] w1]; [|done]. simpl.
  by destruct (a g' w1) as [[s'|e] w2].
Qed.

End use_properties.

Section once_on_accessor.
Context `{Host}.
Import Once.



End once_on_accessor.

(** ** curry *)

Section curry_properties.
Context `{Host} {W : Type}.
Import Curry.

(** A function that binds its arguments while they are fewer than [n]
    and runs [final] on them otherwise, applied batch after batch. *)
Lemma call_each_accumulates (f : value → list value → M W outcome)
    (final : list value → M W value) (n : nat) (this : value) :
  (∀ args,
     f this args
     = if length args <? n then mret (Partial this args)
       else v ← final args; mret (Returned v)) →
  ∀ (batches : list (list value)) (bound last : list value) (w : W),
    (batches ≠ [] → length (bound ++ concat batches) < n) →
    n ≤ length (bound ++ concat batches ++ last) →
    call_each f (Partial this bound) (batches ++ [last]) w
    = (v ← final (bound ++ concat batches ++ last); mret (Returned v, [])) w.
Proof.
  intros Hf batches.
  induction batches as [|b batches IH]; intros bound last w Hshort Hfull; simpl.
  - unfold call_bound. rewrite Hf. simpl in Hfull.
    replace (length (bound ++ last) <? n) with false
      by (symmetry; apply Nat.ltb_ge; lia).
    unfold mbind, M_bind. by destruct (final (bound ++ last) w) as [[v|e] w'].
  - unfold call_bound. rewrite Hf.
    assert (Hb : (length (bound ++ b) <? n) = true).
    { apply Nat.ltb_lt. specialize (Hshort ltac:(done)). simpl in Hshort.
      rewrite !length_app in *. lia. }
    rewrite Hb. unfold mbind at 1, M_bind at 1. simpl.
    rewrite IH.
    + by rewrite <- !app_assoc.
    + intros _. specialize (Hshort ltac:(done)). simpl in Hshort.
      by rewrite <- app_assoc.
    + simpl in Hfull. by rewrite <- !app_assoc in *.
Qed.

(** Currying a method: [obj.m(b1)(b2)...(last)], where the arguments of
    the batches before the last are fewer than the method takes and the
    last batch completes them, calls the method once, on the receiver of
    the first call, with all the arguments in order, extra ones
    included. *)
Theorem curried_accumulates (target : Use.function) (this : value)
    (batches : list (list value)) (last : list value) (w : W) :
  (batches ≠ [] → length (concat batches) < Use.Function_length target) →
  Use.Function_length target ≤ length (concat batches ++ last) →
  call_each (curried target) (Partial this []) (batches ++ [last]) w
  = (v ← Use.code target this (concat batches ++ last);
     mret (Returned v, [])) w.
Proof.
  intros Hshort Hfull.
  by apply (call_each_accumulates (curried target) (Use.code target this)
              (Use.Function_length target) this).
Qed.

(** Currying a class (descorators.js): the batches are gathered in the
    same way and the class is constructed once with all the arguments;
    and at any stage a call with [new] is refused with a TypeError before
    anything else is looked at. *)
Theorem curriedClass_accumulates (name : string) (n : nat)
    (new_target : list value → M W value)
    (batches : list (list value)) (last arguments : list value) (w : W) :
  (batches ≠ [] → length (concat batches) < n) →
  n ≤ length (concat batches ++ last) →
  call_each (λ _, curriedClass name n new_target false)
    (Partial (Primitive PNull) []) (batches ++ [last]) w
  = (v ← new_target (concat batches ++ last); mret (Returned v, [])) w
  ∧ curriedClass name n new_target true arguments w
    = (Throw (TypeError ("Curried constructor " +:+ name
                         +:+ " prohibits use of 'new'")), w).
Proof.
  intros Hshort Hfull. split; [|done].
  by apply (call_each_accumulates (λ _, curriedClass name n new_target false)
              new_target n (Primitive PNull)).
Qed.

(** Short of arguments, the curried function runs nothing: it answers a
    bound function that remembers the receiver and the arguments. *)
Lemma curried_short (target : Use.function) (this : value)
    (arguments : list value) (w : W) :
  length arguments < Use.Function_length target →
  curried target this arguments w = (Normal (Partial this arguments), w).
Proof.
  intros Hlt. unfold curried.
  by replace (length arguments <? Use.Function_length target) with true
    by (symmetry; by apply Nat.ltb_lt).
Qed.

End curry_properties.

(** ** Access flags and [accessor] *)

Section access_properties.
Context `{Host} {W : Type}.
Context (instanceof_Boolean : reference → bool).
Context (valueOf : reference → completion value).
Import Access.

(** [configurable(b)], [enumerable(b)] and [writable(b)] give the
    decorator bound to the boolean [b], and that decorator sets its flag
    to [true], for [b = false] as for [b = true]: a primitive receiver is
    no instance of [Boolean]. The other properties of the descriptor are
    kept. *)
Theorem flag_decorators_always_enable (b : bool) (this0 : value)
    (d0 : option (Use.descriptor (W := W))) (target : Use.item (W := W))
    (d : Use.descriptor (W := W)) :
  (∀ b', target ≠ Use.Plain (Primitive (PBoolean b'))) →
  let bound := Primitive (PBoolean b) in
  let yes := Some (Primitive (PBoolean true)) in
  (configurable instanceof_Boolean valueOf this0 (Use.Plain bound) d0
   = Normal (BoundTo (W := W) bound)
   ∧ configurable instanceof_Boolean valueOf bound target (Some d)
     = Normal (Decorated
         (Use.Descriptor (Use.own_value d) (Use.own_get d) (Use.own_set d)
            yes (Use.enumerable d) (Use.writable d))))
  ∧ (enumerable instanceof_Boolean valueOf this0 (Use.Plain bound) d0
     = Normal (BoundTo (W := W) bound)
     ∧ enumerable instanceof_Boolean valueOf bound target (Some d)
       = Normal (Decorated
           (Use.Descriptor (Use.own_value d) (Use.own_get d) (Use.own_set d)
              (Use.configurable d) yes (Use.writable d))))
  ∧ (writable instanceof_Boolean valueOf this0 (Use.Plain bound) d0
     = Normal (BoundTo (W := W) bound)
     ∧ writable instanceof_Boolean valueOf bound target (Some d)
       = Normal (Decorated
           (Use.Descriptor (Use.own_value d) (Use.own_get d) (Use.own_set d)
              (Use.configurable d) (Use.enumerable d) yes))).
Proof.
  intros Htarget bound yes.
  assert (Hrun : ∀ put,
            access_flag instanceof_Boolean valueOf put bound target (Some d)
            = Normal (Decorated (put (Primitive (PBoolean true)) d))).
  { intros put. unfold access_flag.
    destruct target as [f|[p|r]]; try done.
    destruct p; try done. by destruct (Htarget b0). }
  unfold configurable, enumerable, writable. rewrite !Hrun. by split_and!.
Qed.

(** The options that [ability] builds from names hold a name exactly
    when it was given. *)
Lemma ability_options_lookup (options : string) (rest : list string)
    (name : string) :
  default false (ability_options options rest !! name)
  = bool_decide (name ∈ options :: rest).
Proof.
  unfold ability_options.
  assert (Hfold : ∀ (o : gmap string bool),
            (∀ k v, o !! k = Some v → v = true) →
            default false (foldl (λ o name, <[name := true]> o) o rest !! name)
            = bool_decide (is_Some (o !! name) ∨ name ∈ rest)).
  { induction rest as [|r rest IH]; intros o Ho; simpl.
    - destruct (o !! name) as [v|] eqn:E; simpl.
      + pose proof (Ho _ _ E) as ->.
        first [done | symmetry; apply bool_decide_eq_true_2; left; eauto].
      + first [done | symmetry; apply bool_decide_eq_false_2;
                      intros [[? ?]|Hin]; [done|by apply elem_of_nil in Hin]].
    - rewrite IH.
      + apply bool_decide_ext. rewrite lookup_insert_is_Some, elem_of_cons.
        destruct (decide (r = name)) as [->|]; intuition congruence.
      + intros k v. rewrite lookup_insert.
        destruct (decide (r = k)); [congruence|apply Ho]. }
  rewrite Hfold.
  - apply bool_decide_ext. rewrite elem_of_cons, lookup_singleton_is_Some.
    intuition congruence.
  - intros k v. rewrite lookup_singleton.
    destruct (decide (options = k)); congruence.
Qed.

(** [ability(name, ...more)] sets each of the three access flags to
    whether its name was given, overwriting what the descriptor had, and
    keeps the other properties. *)
Theorem ability_sets_named_flags (options : string) (rest : list string)
    (d : Use.descriptor (W := W)) :
  let given name := Some (Primitive (PBoolean (bool_decide (name ∈ options :: rest)))) in
  ability options rest (Some d)
  = Normal (Use.Descriptor (Use.own_value d) (Use.own_get d) (Use.own_set d)
              (given "configurable") (given "enumerable") (given "writable")).
Proof.
  intros given. unfold ability. by rewrite !ability_options_lookup.
Qed.

(** [accessor] turns a descriptor into an accessor exactly when it has no
    [get] and no [set] and its [value] is a function or absent; the
    getter and the setter are then both what [value] held, [value] is
    gone, and the flags are kept. Every other descriptor is refused. *)
Theorem accessor_decorates_methods_only (target : Use.item (W := W))
    (name : primitive) (d : Use.descriptor (W := W)) :
  match accessor target name (Some d) with
  | Normal d' =>
      Use.own_get d = None ∧ Use.own_set d = None
      ∧ (∀ v, Use.own_value d ≠ Some (Use.Plain v))
      ∧ d' = Use.Descriptor None (Some (Use.read (Use.own_value d)))
               (Some (Use.read (Use.own_value d)))
               (Use.configurable d) (Use.enumerable d) (Use.writable d)
  | Throw _ =>
      is_Some (Use.own_get d) ∨ is_Some (Use.own_set d)
      ∨ ∃ v, Use.own_value d = Some (Use.Plain v)
  end.
Proof.
  unfold accessor.
  destruct d as [[[f|v]|] [g|] [s|] cf en wr]; simpl;
    try (destruct (ToString name); simpl; eauto 10; fail);
    split_and!; done.
Qed.

End access_properties.

(** ** Runs of the further properties *)

Section further_runs.
#[local] Existing Instance integral_host.

(** A memoized function called as a plain function: [this] is
    [undefined]. *)
Lemma fetch_rejects_primitive_receiver_witness :
  Function.Cache_fetch (Primitive PUndefined) [Primitive (PNumber 1%Z)] None
    Function.initial
  = (Throw (TypeError "Invalid value used as weak map key"), Function.initial)
  ∧ Function.memoized
      {| Function.code := λ _ _, mret (Primitive PNull);
         Function.prototype := Primitive PUndefined |}
      (Primitive PUndefined) [Primitive (PNumber 1%Z)] Function.initial
    = (Throw (TypeError "Invalid value used as weak map key"), Function.initial).
Proof.
  apply (fetch_rejects_primitive_receiver PUndefined). discriminate.
Defined.

Lemma fetch_without_fallback_witness :
  ∃ w1,
    Function.Cache_fetch (Ref (AnObject 1)) [Primitive (PBoolean true)] None
      Function.initial
    = (Throw (TypeError "fallback is not a function"), w1)
    ∧ (Function.scopes w1 !!! AnObject 1) !! "true" = None
    ∧ Function.calls w1 = Function.calls Function.initial.
Proof.
  apply (fetch_without_fallback Function.initial (AnObject 1)
           [Primitive (PBoolean true)] "true").
  reflexivity.
Defined.

Lemma fetch_leaves_other_entries_witness :
  let c := Call "compute" (Primitive PUndefined) [] in
  let run :=
    Function.Cache_fetch (Ref (AnObject 1)) [Primitive (PBoolean true)]
      (Some (Function.invoke c (lift (Normal (Primitive PNull)))))
      Function.initial in
  (Function.scopes run.2 !!! AnObject 2) !! "true"
  = (Function.scopes Function.initial !!! AnObject 2) !! "true".
Proof.
  intros c run.
  apply (fetch_leaves_other_entries Function.initial run.2 (AnObject 1)
           (AnObject 2) [Primitive (PBoolean true)] "true" "true" c
           (Normal (Primitive PNull)) run.1).
  - reflexivity.
  - discriminate.
  - reflexivity.
Defined.

Lemma accessor_get_does_not_cache_failure_witness :
  let this := Ref (AnObject 1) in
  let boom := Thrown (Primitive (PString "boom")) in
  ∃ w1 w2,
    Function.accessor_get (λ _, throw boom) this Function.initial = (Throw boom, w1)
    ∧ Function.accessor_invalid w1 = true
    ∧ Function.accessor_get (λ _, mret (Primitive PNull)) this w1
      = (Normal (Primitive PNull), w2)
    ∧ Function.calls w2
      = [Call "getter" this []; Call "getter" this []]
        ++ Function.calls Function.initial.
Proof.
  intros this boom.
  apply (accessor_get_does_not_cache_failure Function.initial). reflexivity.
Defined.

Lemma keyFor_separates_references_witness :
  let run_a := Descorators.keyFor [Ref (AnObject 10)] Descorators.initial in
  let run_b := Descorators.keyFor [Ref (AnObject 20)] run_a.2 in
  run_a.1 = Normal "<1>" ∧ run_b.1 = Normal "<2>" ∧ "<1>" ≠ "<2>".
Proof.
  intros run_a run_b. split_and!; [reflexivity|reflexivity|].
  apply (keyFor_separates_references Descorators.initial run_a.2 run_b.2
           (AnObject 10) (AnObject 20) "<1>" "<2>").
  - apply registry_ok_initial.
  - discriminate.
  - reflexivity.
  - reflexivity.
Defined.

Lemma keyFor_is_stable_witness :
  let args := [Ref (AnObject 10); Primitive (PString "x")] in
  let run := Descorators.keyFor args Descorators.initial in
  Descorators.keyFor args run.2 = (run.1, run.2)
  ∧ Descorators.references Descorators.initial ⊆ Descorators.references run.2
  ∧ Descorators.method_cache run.2 = Descorators.method_cache Descorators.initial
  ∧ Descorators.bound run.2 = Descorators.bound Descorators.initial
  ∧ Descorators.accessor_cache run.2
    = Descorators.accessor_cache Descorators.initial
  ∧ Descorators.calls run.2 = Descorators.calls Descorators.initial.
Proof.
  intros args run.
  apply (keyFor_is_stable args Descorators.initial run.2 run.1). reflexivity.
Defined.

Lemma memoizedMethod_receivers_are_separate_witness :
  let a := AnObject 1 in
  let b := AnObject 2 in
  let A := [Primitive (PBoolean true)] in
  let v := Primitive (PNumber 42%Z) in
  ∃ w1,
    Descorators.memoizedMethod (λ _ _, mret v) (Ref a) A Descorators.initial
    = (Normal v, w1)
    ∧ (Descorators.method_cache w1 !!! a) !! "true" = Some v
    ∧ Descorators.method_cache w1 !!! b
      = Descorators.method_cache Descorators.initial !!! b
    ∧ Descorators.bound w1 !! b = Descorators.bound Descorators.initial !! b.
Proof.
  intros a b A v.
  apply (memoizedMethod_receivers_are_separate Descorators.initial
           Descorators.initial a b A "true" v).
  - discriminate.
  - left. reflexivity.
  - reflexivity.
  - reflexivity.
Defined.

Lemma memoizedGetter_does_not_cache_failure_witness :
  let r := AnObject 1 in
  let boom := Thrown (Primitive (PString "boom")) in
  ∃ w1 w2,
    Descorators.memoizedGetter (λ _, throw boom) (Ref r) Descorators.initial
    = (Throw boom, w1)
    ∧ Descorators.accessor_cache w1 !! r = None
    ∧ Descorators.memoizedGetter (λ _, mret (Primitive PNull)) (Ref r) w1
      = (Normal (Primitive PNull), w2)
    ∧ Descorators.calls w2
      = [Call "getter" (Ref r) []; Call "getter" (Ref r) []]
        ++ Descorators.calls Descorators.initial.
Proof.
  intros r boom.
  apply (memoizedGetter_does_not_cache_failure Descorators.initial r).
  reflexivity.
Defined.

Lemma decorators_reject_primitive_receiver_witness :
  Descorators.memoizedMethod (λ _ _, mret (Primitive PNull))
    (Primitive PUndefined) [] Descorators.initial
  = (Throw (TypeError "Invalid value used as weak map key"), Descorators.initial)
  ∧ Descorators.memoizedGetter (λ _, mret (Primitive PNull))
      (Primitive PUndefined) Descorators.initial
    = (Throw (TypeError "Invalid value used as weak map key"),
       Descorators.log (Call "getter" (Primitive PUndefined) [])
         Descorators.initial).
Proof.
  apply (decorators_reject_primitive_receiver Descorators.initial PUndefined).
  discriminate.
Defined.

End further_runs.

Section decorator_runs.
#[local] Existing Instance integral_host.

(** A target that answers its receiver. *)
Lemma once_keeps_first_result_witness :
  let body := λ (this : value) (_ : list value), Normal this in
  let target := {| Use.code := λ this arguments, lift (body this arguments);
                   Use.Function_length := 0 |} in
  let a := Ref (AnObject 1) in
  ∃ k w0 w1,
    Once.once (Use.Callable target) Once.initial
    = (Normal (Use.Callable {| Use.code := Once.wrapper k (Use.code target);
                               Use.Function_length := 0 |}), w0)
    ∧ Once.wrapper k (Use.code target) a [] w0 = (Normal a, w1)
    ∧ Once.calls w1 = Call "target" a [] :: Once.calls Once.initial
    ∧ ∀ this' arguments',
        Once.wrapper k (Use.code target) this' arguments' w1 = (Normal a, w1).
Proof.
  intros body target a.
  apply (once_keeps_first_result Once.initial body 0 a [] a). reflexivity.
Defined.

Lemma once_after_failure_witness :
  let boom := Thrown (Primitive (PString "boom")) in
  let body := λ (_ : value) (_ : list value), Throw (A := value) boom in
  let target := {| Use.code := λ this arguments, lift (body this arguments);
                   Use.Function_length := 0 |} in
  let a := Ref (AnObject 1) in
  ∃ k w0 w1,
    Once.once (Use.Callable target) Once.initial
    = (Normal (Use.Callable {| Use.code := Once.wrapper k (Use.code target);
                               Use.Function_length := 0 |}), w0)
    ∧ Once.wrapper k (Use.code target) a [] w0 = (Throw boom, w1)
    ∧ Once.calls w1 = Call "target" a [] :: Once.calls Once.initial
    ∧ ∀ this' arguments',
        Once.wrapper k (Use.code target) this' arguments' w1
        = (Normal (Primitive PUndefined), w1).
Proof.
  intros boom body target a.
  apply (once_after_failure Once.initial body 0 a [] boom). reflexivity.
Defined.


(** A method of three parameters that answers its receiver, called as
    [m(1)(2)(3, 4)]. *)
Lemma curried_accumulates_witness :
  let n := λ z, Primitive (PNumber z) in
  let target := {| Use.code := λ this _, (mret this : M unit value);
                   Use.Function_length := 3 |} in
  let this := Ref (AnObject 1) in
  Curry.call_each (Curry.curried target) (Curry.Partial this [])
    ([[n 1%Z]; [n 2%Z]] ++ [[n 3%Z; n 4%Z]]) tt
  = (v ← Use.code target this (concat [[n 1%Z]; [n 2%Z]] ++ [n 3%Z; n 4%Z]);
     mret (Curry.Returned v, [])) tt.
Proof.
  intros n target this.
  apply (curried_accumulates target this [[n 1%Z]; [n 2%Z]] [n 3%Z; n 4%Z] tt).
  - intros _. simpl. lia.
  - simpl. lia.
Defined.

Lemma curriedClass_accumulates_witness :
  let n := λ z, Primitive (PNumber z) in
  let new_target := λ _ : list value, (mret (Ref (AnObject 1)) : M unit value) in
  Curry.call_each (λ _, Curry.curriedClass "Point" 2 new_target false)
    (Curry.Partial (Primitive PNull) []) ([[n 1%Z]] ++ [[n 2%Z]]) tt
  = (v ← new_target (concat [[n 1%Z]] ++ [n 2%Z]); mret (Curry.Returned v, [])) tt
  ∧ Curry.curriedClass "Point" 2 new_target true [n 1%Z; n 2%Z] tt
    = (Throw (TypeError ("Curried constructor " +:+ "Point"
                         +:+ " prohibits use of 'new'")), tt).
Proof.
  intros n new_target.
  apply (curriedClass_accumulates "Point" 2 new_target [[n 1%Z]] [n 2%Z]
           [n 1%Z; n 2%Z] tt).
  - intros _. simpl. lia.
  - simpl. lia.
Defined.

(** [configurable(false)], [enumerable(false)] and [writable(false)] on
    the descriptor of a method. *)
Lemma flag_decorators_always_enable_witness :
  let no_Boolean := λ _ : reference, false in
  let valueOf := λ _ : reference, Normal (Primitive PUndefined) in
  let method := Use.Callable (W := unit)
    {| Use.code := λ _ _, mret (Primitive PNull); Use.Function_length := 0 |} in
  let d := Use.Descriptor (Some method) None None None None None in
  let receiver := Primitive (PBoolean false) in
  let yes := Some (Primitive (PBoolean true)) in
  Access.configurable no_Boolean valueOf receiver (Use.Plain (Ref (AnObject 1)))
    (Some d)
  = Normal (Access.Decorated (Use.Descriptor (Some method) None None yes None None))
  ∧ Access.enumerable no_Boolean valueOf receiver (Use.Plain (Ref (AnObject 1)))
      (Some d)
    = Normal (Access.Decorated (Use.Descriptor (Some method) None None None yes None))
  ∧ Access.writable no_Boolean valueOf receiver (Use.Plain (Ref (AnObject 1)))
      (Some d)
    = Normal (Access.Decorated (Use.Descriptor (Some method) None None None None yes)).
Proof.
  intros no_Boolean valueOf method d receiver yes.
  destruct (flag_decorators_always_enable no_Boolean valueOf false
              (Primitive PUndefined) None (Use.Plain (Ref (AnObject 1))) d)
    as ((_ & Hc) & (_ & He) & (_ & Hw)); [discriminate|].
  by split_and!.
Defined.

End decorator_runs.
